(** * The document queue of the Elasticsearch indexer lambda

    A shallow embedding of [lambdas/es/indexer/document_queue.py]: the
    [DocumentQueue] class ([append], [append_document], [send_all]) and
    [bulk_send], followed by the properties of the queue's byte budget,
    of the flush and its single retry, and of the documents [append]
    builds.

    Python state ([self.queue], [self.size]) is threaded explicitly; the
    Elasticsearch cluster and the clock are an abstract world; exceptions
    are a result variant that keeps the state reached when they were
    raised. *)

From Stdlib Require Import ZArith Ascii String.
From stdpp Require Import gmap strings list pretty.

Open Scope string_scope.
Open Scope list_scope.
Open Scope Z_scope.

(** ** Python values that reach the queue *)

(** The values [version_id] may hold when [append] is called: the code
    tests [isinstance(version_id, (str, type(None)))] and formats the
    value in an f-string. Any other object is seen through the text
    [str()] gives for it. *)
Inductive PyVal :=
| PyNone
| PyStr (s : string)
| PyInt (n : Z)
| PyBool (b : bool)
| PyObject (repr : string).

(** [isinstance(v, (str, type(None)))] *)
Definition isinstance_str_or_none (v : PyVal) : bool :=
  match v with
  | PyNone | PyStr _ => true
  | PyInt _ | PyBool _ | PyObject _ => false
  end.

(** [str(v)], which is what an f-string substitutes for [{v}]. *)
Definition py_str (v : PyVal) : string :=
  match v with
  | PyNone => "None"
  | PyStr s => s
  | PyInt n => pretty n
  | PyBool true => "True"
  | PyBool false => "False"
  | PyObject repr => repr
  end.

(** A [datetime], seen through the one method the code calls on it. *)
Record datetime := { isoformat : string }.

(** [s.startswith(p)] *)
Definition startswith (s p : string) : bool := String.prefix p s.

(** Truth value of a Python string: only the empty one is false. *)
Definition truthy (s : string) : bool :=
  match s with
  | EmptyString => false
  | String _ _ => true
  end.

(** ** Module constants *)

Definition EVENT_PREFIX : gmap string string :=
  <["Removed" := "ObjectRemoved:"]> (<["Created" := "ObjectCreated:"]> ∅).

Definition QUEUE_LIMIT_BYTES : Z := 100000000.

(** ** Documents *)

Module Doc.
(** The dict [body] that [append] builds, one field per key. *)
Record t := mk {
  _id : string;
  _index : string;
  _type : string;
  _op_type : string;
  comment : string;
  content : string;
  etag : string;
  event : string;
  ext : string;
  key : string;
  last_modified : string;
  meta_text : string;
  size : Z;
  target : string;
  updated : string;
  version_id : PyVal
}.
End Doc.

(** A failure entry returned by [bulk]: a dict from operation names to an
    inner dict of strings ([_id], [error], [status], ...). *)
Abbreviation Inner := (gmap string string).
Abbreviation BulkError := (gmap string (gmap string string)).

(** [k in d] for a dict. *)
Definition has_key {V} (k : string) (d : gmap string V) : bool :=
  bool_decide (is_Some (d !! k)).

(** ** The object and the machine it runs on *)

(** The instance attributes of [DocumentQueue]. [self.context] only feeds
    the [max_backoff] of the Elasticsearch client, which is part of the
    world below. *)
Record DocumentQueue := {
  queue : list Doc.t;
  size : Z
}.

(** [DocumentQueue.__init__] *)
Definition init : DocumentQueue := {| queue := []; size := 0 |}.

Inductive Exn := ValueError | RetryError | KeyError.

Inductive Result (A : Type) :=
| Ok (a : A)
| Raise (e : Exn).
Arguments Ok {A} a.
Arguments Raise {A} e.

(** What an observer of a run sees: each entry into [send_all] and each
    call of [bulk] with the batch it was given. *)
Inductive Event :=
| EvSendAll
| EvBulk (docs : list Doc.t).

Definition is_bulk (e : Event) : option (list Doc.t) :=
  match e with
  | EvBulk docs => Some docs
  | EvSendAll => None
  end.

(** The batches dispatched in a trace, in order. *)
Definition dispatches (t : list Event) : list (list Doc.t) := omap is_bulk t.

Definition is_send_all (e : Event) : bool :=
  match e with
  | EvSendAll => true
  | EvBulk _ => false
  end.

(** The number of flushes started in a trace. *)
Definition flushes (t : list Event) : nat :=
  length (List.filter is_send_all t).

(** The object that the local [send_again] of [send_all] is bound to:
    the list created by [send_again = []], which nothing else refers to,
    or the very list object held in [self.queue]. *)
Inductive ListRef :=
| NewList (contents : list Doc.t)
| SelfQueue.

(** What a run acts on: the object, the world outside it (of some type
    [W]) and the trace so far. *)
Record Machine (W : Type) := {
  self : DocumentQueue;
  world : W;
  trace : list Event
}.
Arguments self {W} _.
Arguments world {W} _.
Arguments trace {W} _.

(** The dict literal bound to [body] in [append]. *)
Definition body (event_type : string) (size : Z) (last_modified : datetime)
    (bucket ext key text etag : string) (version_id : PyVal)
    (now : datetime) : Doc.t :=
  {| Doc._id := key +:+ ":" +:+ py_str version_id;
     Doc._index := bucket;
     Doc._type := "_doc";
     Doc._op_type :=
       if startswith event_type (EVENT_PREFIX !!! "Removed")
       then "delete" else "index";
     Doc.comment := "";
     Doc.content := text;
     Doc.etag := etag;
     Doc.event := event_type;
     Doc.ext := ext;
     Doc.key := key;
     Doc.last_modified := isoformat last_modified;
     Doc.meta_text := "";
     Doc.size := size;
     Doc.target := "";
     Doc.updated := isoformat now;
     Doc.version_id := version_id |}.

(** ** The synthetic events of the tests

    [make_event] and [_make_event] of [test/test_index.py], which build
    the S3 notifications the indexer is tested with, over JSON values. *)
Module TestEvents.

(** A JSON value; a dict is the list of its items, in insertion order,
    with no key twice. *)
#[warnings="-register-all"] Inductive Json :=
| JStr (s : string)
| JInt (n : Z)
| JObj (items : list (string * Json)).

(** [d[k]] on the items of a dict. *)
Fixpoint item (k : string) (items : list (string * Json)) : option Json :=
  match items with
  | [] => None
  | (k', v) :: rest => if String.eqb k' k then Some v else item k rest
  end.

(** [d[k] = v] on the items of a dict: a key that is there keeps its
    place, a new key goes last. *)
Fixpoint set_item (k : string) (v : Json) (items : list (string * Json))
    : list (string * Json) :=
  match items with
  | [] => [(k, v)]
  | (k', v') :: rest =>
      if String.eqb k' k then (k', v) :: rest
      else (k', v') :: set_item k v rest
  end.

(** [e[k]]; [None] when the key is missing or [e] is not a dict. *)
Definition subscript (k : string) (e : Json) : option Json :=
  match e with
  | JObj items => item k items
  | JStr _ | JInt _ => None
  end.

(** [e[p1]...[pn]] *)
Fixpoint lookup_path (path : list string) (e : Json) : option Json :=
  match path with
  | [] => Some e
  | k :: rest => subscript k e ≫= lookup_path rest
  end.

(** [e[p1]...[pn][k] = v]; [None] when a subscript on the way fails. *)
Fixpoint assign (path : list string) (k : string) (v : Json) (e : Json)
    {struct e} : option Json :=
  match e with
  | JObj items =>
      match path with
      | [] => Some (JObj (set_item k v items))
      | k1 :: rest =>
          JObj <$>
            (fix inside (items : list (string * Json)) :=
               match items with
               | [] => None
               | (k', inner) :: others =>
                   if String.eqb k' k1
                   then inner' ← assign rest k v inner;
                        Some ((k', inner') :: others)
                   else others' ← inside others;
                        Some ((k', inner) :: others')
               end) items
      end
  | JStr _ | JInt _ => None
  end.

(** [e[p1]...[pn].keys()], in order. *)
Definition keys_at (path : list string) (e : Json) : option (list string) :=
  match lookup_path path e with
  | Some (JObj items) => Some (items.*1)
  | _ => None
  end.

Definition CREATE_EVENT_TYPES : gset string :=
  {[ "ObjectCreated:Put"; "ObjectCreated:Copy"; "ObjectCreated:Post";
     "ObjectCreated:CompleteMultipartUpload" ]}.

Definition UNKNOWN_EVENT_TYPE : string := "Event:WeNeverHeardOf".

Definition EVENT_CORE : Json :=
  JObj [
    ("awsRegion", JStr "us-east-1");
    ("eventName", JStr "ObjectCreated:Put");
    ("eventSource", JStr "aws:s3");
    ("eventTime", JStr "2020-05-22T00:32:20.515Z");
    ("eventVersion", JStr "2.1");
    ("requestParameters", JObj [("sourceIPAddress", JStr "127.0.0.1")]);
    ("responseElements",
     JObj [
       ("x-amz-id-2",
        JStr "EXAMPLE123/5678abcdefghijklambdaisawesome/mnopqrstuvwxyzABCDEFGH");
       ("x-amz-request-id", JStr "EXAMPLE123456789")]);
    ("s3",
     JObj [
       ("bucket",
        JObj [
          ("arn", JStr "arn:aws:s3:::test-bucket");
          ("name", JStr "test-bucket");
          ("ownerIdentity", JObj [("principalId", JStr "EXAMPLE")])]);
       ("configurationId", JStr "testConfigRule");
       ("object",
        JObj [
          ("key", JStr "hello+world.txt");
          ("sequencer", JStr "0A1B2C3D4E5F678901")]);
       ("s3SchemaVersion", JStr "1.0")]);
    ("userIdentity", JObj [("principalId", JStr "EXAMPLE")])
  ].

(** [if cond: step] *)
Definition when (cond : bool) (step : Json → option Json) (e : Json)
    : option Json :=
  if cond then step e else Some e.

(** [_make_event(name, *, bucket, eTag, key, region, size, versionId)],
    every argument given. *)
Definition _make_event (name bucket eTag key region : string) (size : Z)
    (versionId : string) : option Json :=
  e ← assign [] "eventName" (JStr name) EVENT_CORE;
  e ← when (truthy bucket)
        (λ e, e ← assign ["s3"; "bucket"] "name" (JStr bucket) e;
              assign ["s3"; "bucket"] "arn"
                     (JStr ("arn:aws:s3:::" +:+ bucket)) e) e;
  e ← when (truthy key) (assign ["s3"; "object"] "key" (JStr key)) e;
  e ← when (truthy eTag) (assign ["s3"; "object"] "eTag" (JStr eTag)) e;
  e ← when (negb (size =? 0))
        (assign ["s3"; "object"] "size" (JInt size)) e;
  e ← when (truthy region) (assign [] "awsRegion" (JStr region)) e;
  when (truthy versionId)
       (assign ["s3"; "object"] "versionId" (JStr versionId)) e.

(** What a call of [make_event] comes to: an event, the [ValueError] for
    an event type it does not expect, or a subscript that failed. *)
Inductive Outcome :=
| Made (e : Json)
| Unexpected (name : string)
| Failed.

Definition made (e : option Json) : Outcome :=
  match e with
  | Some e => Made e
  | None => Failed
  end.

(** [make_event(name, *, bucket, eTag, key, region, size, versionId,
    bucket_versioning)], every argument given. A keyword [_make_event]
    is not passed takes its default there: the empty string, or 0. *)
Definition make_event (name bucket eTag key region : string) (size : Z)
    (versionId : string) (bucket_versioning : bool) : Outcome :=
  if bool_decide (name ∈ CREATE_EVENT_TYPES) then
    made (_make_event name bucket eTag key region size
                      (if bucket_versioning then versionId else ""))
  else if bool_decide (name = "ObjectRemoved:Delete") then
    made (_make_event name bucket "" key region 0 "")
  else if bool_decide (name = "ObjectRemoved:DeleteMarkerCreated") then
    made (_make_event name bucket eTag key region size
                      (if bucket_versioning then versionId else ""))
  else if bool_decide (name = UNKNOWN_EVENT_TYPE) then
    made (_make_event UNKNOWN_EVENT_TYPE "" "" "" "" 0 "")
  else Unexpected name.

(** The event types for which [make_event] passes the object's [eTag],
    [size] and [versionId] on. *)
Definition with_object (name : string) : bool :=
  bool_decide (name ∈ CREATE_EVENT_TYPES)
  || bool_decide (name = "ObjectRemoved:DeleteMarkerCreated").

End TestEvents.

(** ** A scripted cluster

    A concrete world for running the queue: the cluster answers the
    successive [bulk] calls with the failure lists it was scripted with,
    and with success once the script is over; the clock stands still. *)
Module Scripted.

Definition World : Type := list (list BulkError).

Definition bulk (w : World) (docs : list Doc.t)
    : (nat * list BulkError) * World :=
  match w with
  | [] => ((length docs, []), [])
  | errors :: w' => ((0%nat, errors), w')
  end.

Definition utcnow (w : World) : datetime * World :=
  ({| isoformat := "2020-05-27T20:10:47" |}, w).

Definition start (s : DocumentQueue) (w : World) : Machine World :=
  {| self := s; world := w; trace := [] |}.

(** A failure entry [{op: {"_id": i}}]. *)
Definition failure (op i : string) : BulkError :=
  {[ op := {[ "_id" := i ]} ]}.

Definition t0 : datetime := {| isoformat := "2020-05-27T20:00:00" |}.

(** A document as [append] builds it for a created object. *)
Definition doc (key version text : string) (size : Z) : Doc.t :=
  body "ObjectCreated:Put" size t0 "bucket" ".txt" key text "etag"
       (PyStr version) t0.

(** Two documents, and a queue that holds them. *)
Definition da : Doc.t := doc "a" "v1" "hello" 5.
Definition db : Doc.t := doc "b" "v1" "" 7.
Definition pending : DocumentQueue := {| queue := [da; db]; size := 5 |}.

(** The queue after the notification for [da] was delivered twice. *)
Definition redelivered : DocumentQueue :=
  {| queue := [da; db; da]; size := 10 |}.

(** A failure entry with a key the code has never heard of. *)
Definition unknown : BulkError := failure "event_we_never_heard_of" "b:v1".

(** A failure entry under [index] that names no document. *)
Definition anonymous : BulkError := {[ "index" := {[ "status" := "400" ]} ]}.

End Scripted.

Section Indexer.

(** The state of the search cluster and of the clock. *)
Context {W : Type}.

(** [t4_lambda_shared.preview.ELASTIC_LIMIT_BYTES] *)
Variable ELASTIC_LIMIT_BYTES : Z.

(** [elasticsearch.helpers.bulk] with the options [bulk_send] fixes
    ([raise_on_error=False], [raise_on_exception=False]): the number of
    successes and the list of failure entries. *)
Variable bulk : W → list Doc.t → (nat * list BulkError) * W.

(** [datetime.utcnow()] *)
Variable utcnow : W → datetime * W.

Definition M (A : Type) : Type := Machine W → Result A * Machine W.

#[local] Instance M_ret : MRet M := λ A a m, (Ok a, m).
#[local] Instance M_bind : MBind M := λ A B f c m,
  match c m with
  | (Ok a, m') => f a m'
  | (Raise e, m') => (Raise e, m')
  end.

Definition raise {A} (e : Exn) : M A := λ m, (Raise e, m).

Definition get_queue : M (list Doc.t) := λ m, (Ok (queue (self m)), m).
Definition get_size : M Z := λ m, (Ok (size (self m)), m).

Definition set_self (s : DocumentQueue) : M unit := λ m,
  (Ok tt, {| self := s; world := world m; trace := trace m |}).

Definition log (e : Event) : M unit := λ m,
  (Ok tt, {| self := self m; world := world m; trace := trace m ++ [e] |}).

Definition in_world {A} (f : W → A * W) : M A := λ m,
  let '(a, w) := f (world m) in
  (Ok a, {| self := self m; world := w; trace := trace m |}).

(** [bulk_send(elastic, list_)] *)
Definition bulk_send (list_ : list Doc.t) : M (nat * list BulkError) :=
  log (EvBulk list_);; in_world (λ w, bulk w list_).

(** [DocumentQueue.append_document] *)
Definition append_document (doc : Doc.t) : M unit := λ m,
  let s := self m in
  let size' :=
    if truthy (Doc.content doc)
    then size s + Z.min (Doc.size doc) ELASTIC_LIMIT_BYTES
    else size s in
  set_self {| queue := queue s ++ [doc]; size := size' |} m.

(** [{d["_id"]: d for d in self.queue}]: a later document replaces an
    earlier one with the same identifier. *)
Definition id_to_doc_of (q : list Doc.t) : gmap string Doc.t :=
  foldl (λ acc d, <[Doc._id d := d]> acc) ∅ q.

(** [send_again.append(doc)]: appending through an alias of
    [self.queue] changes the queue itself. *)
Definition list_append (r : ListRef) (doc : Doc.t) : M ListRef :=
  match r with
  | NewList l => mret (NewList (l ++ [doc]))
  | SelfQueue => λ m,
      let s := self m in
      (Ok SelfQueue,
       {| self := {| queue := queue s ++ [doc]; size := size s |};
          world := world m; trace := trace m |})
  end.

(** The contents of the list a reference points to. *)
Definition deref (r : ListRef) : M (list Doc.t) :=
  match r with
  | NewList l => mret l
  | SelfQueue => get_queue
  end.

(** ["index" in error or "delete" in error] *)
Definition recognised (error : BulkError) : bool :=
  has_key "index" error || has_key "delete" error.

(** The value of [inner] after the two assignments: [error["delete"]]
    when that key is there, else [error["index"]]. *)
Definition inner_of (error : BulkError) : Inner :=
  let inner := if has_key "index" error then error !!! "index" else ∅ in
  if has_key "delete" error then error !!! "delete" else inner.

(** One iteration of [for error in errors]. *)
Definition classify_step (id_to_doc : gmap string Doc.t)
    (send_again : ListRef) (error : BulkError) : M ListRef :=
  if recognised error then
    let inner := inner_of error in
    if has_key "_id" inner then
      match id_to_doc !! (inner !!! "_id") with
      | Some doc => list_append send_again doc
      | None => raise KeyError
      end
    else mret send_again
  else mret SelfQueue.

(** The whole loop. *)
Fixpoint classify (id_to_doc : gmap string Doc.t)
    (send_again : ListRef) (errors : list BulkError) : M ListRef :=
  match errors with
  | [] => mret send_again
  | error :: rest =>
      r ← classify_step id_to_doc send_again error;
      classify id_to_doc r rest
  end.

Definition is_nil {A} (l : list A) : bool :=
  match l with
  | [] => true
  | _ :: _ => false
  end.

(** [DocumentQueue.send_all]. The code between the emptiness test and
    the first [bulk_send] reads [ES_HOST] and the credentials and builds
    the client; it touches neither the queue nor the total, and the
    client it builds is the cluster end of [bulk]. *)
Definition send_all : M unit :=
  log EvSendAll;;
  q ← get_queue;
  if is_nil q then mret tt
  else
    r1 ← bulk_send q;
    (if is_nil r1.2 then mret tt
     else
       let id_to_doc := id_to_doc_of q in
       r ← classify id_to_doc (NewList []) r1.2;
       send_again ← deref r;
       if is_nil send_again then mret tt
       else
         r2 ← bulk_send send_again;
         if is_nil r2.2 then mret tt else raise RetryError);;
    set_self {| queue := []; size := 0 |}.

(** [DocumentQueue.append] *)
Definition append (event_type : string) (size : Z)
    (last_modified : datetime) (bucket ext key text etag : string)
    (version_id : PyVal) : M unit :=
  if negb (isinstance_str_or_none version_id) then raise ValueError
  else if negb (startswith event_type (EVENT_PREFIX !!! "Created")
                || startswith event_type (EVENT_PREFIX !!! "Removed"))
  then mret tt
  else
    now ← in_world utcnow;
    append_document
      (body event_type size last_modified bucket ext key text etag
            version_id now);;
    sz ← get_size;
    if bool_decide (QUEUE_LIMIT_BYTES ≤ sz) then send_all else mret tt.

(** *** Callers

    What code holding a [DocumentQueue] can do with it, and a sequence
    of such calls run in order; an exception ends the sequence. *)
Inductive Call :=
| Append (event_type : string) (size : Z) (last_modified : datetime)
    (bucket ext key text etag : string) (version_id : PyVal)
| AppendDocument (doc : Doc.t)
| SendAll.

Definition call (c : Call) : M unit :=
  match c with
  | Append event_type size last_modified bucket ext key text etag
           version_id =>
      append event_type size last_modified bucket ext key text etag
             version_id
  | AppendDocument doc => append_document doc
  | SendAll => send_all
  end.

Fixpoint calls (cs : list Call) : M unit :=
  match cs with
  | [] => mret tt
  | c :: rest => call c;; calls rest
  end.

Implicit Types (m : Machine W) (q : list Doc.t) (r : ListRef)
  (errors : list BulkError) (id_to_doc : gmap string Doc.t).

(** ** Notions for the statements *)

(** The contents of the list behind a reference, in a given machine. *)
Definition contents r m : list Doc.t :=
  match r with
  | NewList l => l
  | SelfQueue => queue (self m)
  end.

(** The state after [self.size = 0; self.queue = []]. *)
Definition emptied : DocumentQueue := {| queue := []; size := 0 |}.

(** [m] with another trace. *)
Definition with_trace m (t : list Event) : Machine W :=
  {| self := self m; world := world m; trace := t |}.

(** The document the loop appends for a failure entry, if it appends
    one: the entry is recognised, its [inner] has an [_id], and the
    dictionary knows it. *)
Definition attributed id_to_doc (error : BulkError) : option Doc.t :=
  if recognised error
  then inner_of error !! "_id" ≫= λ i, id_to_doc !! i
  else None.

(** The machine in which the loop starts: the first batch has been
    dispatched and the cluster has answered. *)
Definition first_sent m (w1 : W) : Machine W :=
  {| self := self m; world := w1;
     trace := trace m ++ [EvSendAll; EvBulk (queue (self m))] |}.

(** The machine after the second dispatch, before any reset. *)
Definition second_sent m (batch : list Doc.t) (w2 : W) : Machine W :=
  {| self := self m; world := w2; trace := trace m ++ [EvBulk batch] |}.

(** [m] after [self.size = 0; self.queue = []]. *)
Definition reset m : Machine W :=
  {| self := emptied; world := world m; trace := trace m |}.

(** The paths through [send_all]: the machine [m] it starts in, its
    outcome and the machine it ends in. *)
Inductive Flush m : Result unit → Machine W → Prop :=
| Flush_empty :
    queue (self m) = [] →
    Flush m (Ok tt) (with_trace m (trace m ++ [EvSendAll]))
| Flush_sent n w1 :
    queue (self m) ≠ [] →
    bulk (world m) (queue (self m)) = ((n, []), w1) →
    Flush m (Ok tt) (reset (first_sent m w1))
| Flush_key_error n errors w1 m2 :
    queue (self m) ≠ [] →
    bulk (world m) (queue (self m)) = ((n, errors), w1) →
    errors ≠ [] →
    classify (id_to_doc_of (queue (self m))) (NewList []) errors
             (first_sent m w1) = (Raise KeyError, m2) →
    Flush m (Raise KeyError) m2
| Flush_no_retry n errors w1 r m2 :
    queue (self m) ≠ [] →
    bulk (world m) (queue (self m)) = ((n, errors), w1) →
    errors ≠ [] →
    classify (id_to_doc_of (queue (self m))) (NewList []) errors
             (first_sent m w1) = (Ok r, m2) →
    contents r m2 = [] →
    Flush m (Ok tt) (reset m2)
| Flush_retry_ok n errors w1 r m2 n2 w2 :
    queue (self m) ≠ [] →
    bulk (world m) (queue (self m)) = ((n, errors), w1) →
    errors ≠ [] →
    classify (id_to_doc_of (queue (self m))) (NewList []) errors
             (first_sent m w1) = (Ok r, m2) →
    contents r m2 ≠ [] →
    bulk (world m2) (contents r m2) = ((n2, []), w2) →
    Flush m (Ok tt) (reset (second_sent m2 (contents r m2) w2))
| Flush_retry_failed n errors w1 r m2 n2 errors2 w2 :
    queue (self m) ≠ [] →
    bulk (world m) (queue (self m)) = ((n, errors), w1) →
    errors ≠ [] →
    classify (id_to_doc_of (queue (self m))) (NewList []) errors
             (first_sent m w1) = (Ok r, m2) →
    contents r m2 ≠ [] →
    bulk (world m2) (contents r m2) = ((n2, errors2), w2) →
    errors2 ≠ [] →
    Flush m (Raise RetryError) (second_sent m2 (contents r m2) w2).

(** What a document adds to the running total. *)
Definition charge (doc : Doc.t) : Z :=
  if truthy (Doc.content doc)
  then Z.min (Doc.size doc) ELASTIC_LIMIT_BYTES else 0.

(** The machine once [doc] has been put on the queue. *)
Definition put (doc : Doc.t) m : Machine W :=
  {| self := {| queue := queue (self m) ++ [doc];
                size := size (self m) + charge doc |};
     world := world m; trace := trace m |}.

(** The total the queue should show: the capped sizes of the pending
    documents that carry text. *)
Definition budget q : Z :=
  foldr Z.add 0
    ((λ doc, Z.min (Doc.size doc) ELASTIC_LIMIT_BYTES)
       <$> List.filter (λ doc, truthy (Doc.content doc)) q).

Definition budget_ok (s : DocumentQueue) : Prop := size s = budget (queue s).

(** Between [m] and [m'] the document [doc] was put at the end of the
    pending queue: it is still there, or it left with the flush of the
    same call, last of the first batch dispatched. *)
Definition queues m m' (doc : Doc.t) : Prop :=
  (trace m' = trace m ∧ queue (self m') = queue (self m) ++ [doc]) ∨
  (∃ evs, trace m' = trace m ++ EvSendAll
                       :: EvBulk (queue (self m) ++ [doc]) :: evs).

(** A failure entry names a document that was sent: its identifier,
    if the loop reads one, is that of a document of the batch. *)
Definition names_sent q (error : BulkError) : Prop :=
  ∀ i, recognised error = true → inner_of error !! "_id" = Some i →
       ∃ doc, doc ∈ q ∧ Doc._id doc = i.

(** ** Notions for further properties *)

(** The local [_op_type] that [append] computes from the event type
    before it builds the document; [None] when it skips the event. *)
Definition event_op_type (event_type : string) : option string :=
  if startswith event_type (EVENT_PREFIX !!! "Created") then Some "index"
  else if startswith event_type (EVENT_PREFIX !!! "Removed")
       then Some "delete"
       else None.

(** A key with no colon in it. *)
Fixpoint colon_free (key : string) : bool :=
  match key with
  | EmptyString => true
  | String c rest => negb (Ascii.eqb c ":"%char) && colon_free rest
  end.

(** A call that goes through the threshold test or the flush: anything
    but a bare [append_document]. *)
Definition thresholded (c : Call) : bool :=
  match c with
  | AppendDocument _ => false
  | Append _ _ _ _ _ _ _ _ _ | SendAll => true
  end.

(** A call of [append] with an empty text. *)
Definition textless (c : Call) : bool :=
  match c with
  | Append _ _ _ _ _ _ text _ _ => negb (truthy text)
  | AppendDocument _ | SendAll => false
  end.

(** The identifier of the document a call puts on the queue, when it
    puts one: [append] builds a document unless it rejects the version
    id or skips the event type. *)
Definition call_id (c : Call) : option string :=
  match c with
  | Append event_type _ _ _ _ key _ _ version_id =>
      if isinstance_str_or_none version_id then
        match event_op_type event_type with
        | Some _ => Some (key +:+ ":" +:+ py_str version_id)
        | None => None
        end
      else None
  | AppendDocument doc => Some (Doc._id doc)
  | SendAll => None
  end.

(** ** Running the monad *)

Lemma classify_nil id_to_doc r m :
  classify id_to_doc r [] m = (Ok r, m).
Proof. reflexivity. Qed.

Lemma classify_cons id_to_doc r error errors m :
  classify id_to_doc r (error :: errors) m =
  match classify_step id_to_doc r error m with
  | (Ok r1, m1) => classify id_to_doc r1 errors m1
  | (Raise e, m1) => (Raise e, m1)
  end.
Proof. reflexivity. Qed.

#[local] Arguments classify : simpl never.
#[local] Arguments id_to_doc_of : simpl never.
#[local] Arguments deref : simpl never.
#[local] Arguments send_all : simpl never.
#[local] Arguments append_document : simpl never.

Ltac run :=
  repeat (unfold mbind, M_bind, mret, M_ret, raise, get_queue, get_size,
          set_self, log, in_world, bulk_send; cbn).

Lemma deref_contents r m : deref r m = (Ok (contents r m), m).
Proof. by destruct r. Qed.

(** *** The classification loop *)

Lemma classify_step_unrecognised id_to_doc r error m :
  recognised error = false →
  classify_step id_to_doc r error m = (Ok SelfQueue, m).
Proof. intros H. unfold classify_step. by rewrite H. Qed.

Lemma list_append_contents r doc m :
  ∃ r' m', list_append r doc m = (Ok r', m') ∧
    contents r' m' = contents r m ++ [doc] ∧
    world m' = world m ∧ trace m' = trace m ∧
    size (self m') = size (self m) ∧
    (queue (self m') = queue (self m) ∨
     r = SelfQueue ∧ queue (self m') = queue (self m) ++ [doc]) ∧
    (r = SelfQueue ↔ r' = SelfQueue) ∧
    (∀ l, r = NewList l → m' = m).
Proof.
  destruct r as [l|]; run; eexists _, _; (split; [reflexivity|]); cbn;
    intuition (auto; congruence).
Qed.

(** The loop only ever touches [self.queue], and only by appending to
    it; the one exception it can raise is [KeyError]. *)
Lemma classify_step_frame id_to_doc r error m res m' :
  classify_step id_to_doc r error m = (res, m') →
  world m' = world m ∧ trace m' = trace m ∧
  size (self m') = size (self m) ∧
  queue (self m) `prefix_of` queue (self m') ∧
  (res = Raise KeyError ∨ ∃ r', res = Ok r').
Proof.
  unfold classify_step.
  destruct (recognised error); [|run; intros [= <- <-]; eauto 10].
  destruct (has_key "_id" _); [|run; intros [= <- <-]; eauto 10].
  destruct (id_to_doc !! _) as [doc|]; [|run; intros [= <- <-]; eauto 10].
  destruct (list_append_contents r doc m)
    as (r' & m1 & -> & _ & Hw & Ht & Hs & Hq & _ & _).
  intros [= <- <-]. repeat split; eauto.
  destruct Hq as [->|[_ ->]]; [done|by apply prefix_app_r].
Qed.

Lemma classify_frame id_to_doc errors : ∀ r m res m',
  classify id_to_doc r errors m = (res, m') →
  world m' = world m ∧ trace m' = trace m ∧
  size (self m') = size (self m) ∧
  queue (self m) `prefix_of` queue (self m') ∧
  (res = Raise KeyError ∨ ∃ r', res = Ok r').
Proof.
  induction errors as [|error rest IH]; intros r m res m'.
  - rewrite classify_nil. intros [= <- <-]. eauto 10.
  - rewrite classify_cons.
    destruct (classify_step id_to_doc r error m) as [res1 m1] eqn:Hstep.
    apply classify_step_frame in Hstep as (Hw & Ht & Hs & Hq & Hres).
    destruct res1 as [r1|e].
    + intros Hrest. apply IH in Hrest as (Hw' & Ht' & Hs' & Hq' & Hres').
      repeat split; [congruence..| |done]. by etrans.
    + intros [= <- <-]. destruct Hres as [[= ->]|[? [=]]]. eauto 10.
Qed.

(** *** What the loop collects *)

Lemma has_key_true {V} (k : string) (d : gmap string V) :
  has_key k d = true ↔ is_Some (d !! k).
Proof. unfold has_key. by rewrite bool_decide_eq_true. Qed.

Lemma has_key_Some `{!Inhabited V} (k : string) (d : gmap string V) v :
  d !! k = Some v → has_key k d = true ∧ d !!! k = v.
Proof.
  intros H. split; [by apply has_key_true|by apply lookup_total_correct].
Qed.

Lemma has_key_None {V} (k : string) (d : gmap string V) :
  d !! k = None → has_key k d = false.
Proof.
  intros H. unfold has_key. apply bool_decide_eq_false.
  rewrite H. by intros [? [=]].
Qed.

(** An entry under one of the two keys is recognised, and [inner] is
    the value under [delete] if that key is there, else the value under
    [index]. *)
Lemma inner_of_selected (error : BulkError) (inner : Inner) :
  error !! "delete" = Some inner
  ∨ (error !! "delete" = None ∧ error !! "index" = Some inner) →
  recognised error = true ∧ inner_of error = inner.
Proof.
  unfold recognised, inner_of. intros [Hd|[Hd Hi]].
  - destruct (has_key_Some _ _ _ Hd) as [-> ->].
    by rewrite orb_true_r.
  - destruct (has_key_Some _ _ _ Hi) as [-> ->].
    by rewrite (has_key_None _ _ Hd).
Qed.

Lemma unrecognised_keys (error : BulkError) :
  recognised error = false ↔
  error !! "index" = None ∧ error !! "delete" = None.
Proof.
  unfold recognised, has_key. rewrite orb_false_iff.
  rewrite !bool_decide_eq_false, <- !eq_None_not_Some. done.
Qed.

(** The dictionary built from the queue maps an identifier to a
    document of the queue that carries it, and knows every identifier
    of the queue. *)
Lemma id_to_doc_of_lookup q i doc :
  id_to_doc_of q !! i = Some doc → doc ∈ q ∧ Doc._id doc = i.
Proof.
  unfold id_to_doc_of.
  enough (∀ acc : gmap string Doc.t,
            foldl (λ acc d, <[Doc._id d := d]> acc) acc q !! i = Some doc →
            (doc ∈ q ∧ Doc._id doc = i) ∨ acc !! i = Some doc) as H.
  { intros Hl. by destruct (H ∅ Hl) as [?|?]. }
  induction q as [|d q IH]; intros acc; cbn; [auto|].
  intros Hl. destruct (IH _ Hl) as [[Hin Hid]|Hacc].
  - left. split; [by right|done].
  - destruct (decide (Doc._id d = i)) as [Heq|Hne].
    + rewrite Heq, lookup_insert_eq in Hacc. injection Hacc as <-.
      left. split; [by left|done].
    + rewrite lookup_insert_ne in Hacc by done. by right.
Qed.

Lemma id_to_doc_of_known q doc :
  doc ∈ q → is_Some (id_to_doc_of q !! Doc._id doc).
Proof.
  unfold id_to_doc_of.
  enough (∀ acc : gmap string Doc.t,
            doc ∈ q ∨ is_Some (acc !! Doc._id doc) →
            is_Some (foldl (λ acc d, <[Doc._id d := d]> acc) acc q
                     !! Doc._id doc)) as H by eauto.
  induction q as [|d q IH]; intros acc; cbn.
  - intros [Hin|?]; [by apply elem_of_nil in Hin|done].
  - intros [Hin|Hacc]; apply IH.
    + apply elem_of_cons in Hin as [->|Hin]; [right|by left].
      by rewrite lookup_insert_eq.
    + right. destruct (decide (Doc._id d = Doc._id doc)) as [->|Hne].
      * by rewrite lookup_insert_eq.
      * by rewrite lookup_insert_ne.
Qed.

Lemma classify_step_recognised id_to_doc r error m r' m' :
  recognised error = true →
  classify_step id_to_doc r error m = (Ok r', m') →
  contents r' m'
    = contents r m ++ option_list (attributed id_to_doc error) ∧
  (r' = SelfQueue ↔ r = SelfQueue) ∧
  (∀ l, r = NewList l → m' = m).
Proof.
  intros Hrec. unfold classify_step, attributed. rewrite Hrec.
  destruct (inner_of error !! "_id") as [i|] eqn:Hid.
  - destruct (has_key_Some _ _ _ Hid) as [-> ->]. cbn.
    destruct (id_to_doc !! i) as [doc|]; [|done]. cbn.
    destruct (list_append_contents r doc m)
      as (r1 & m1 & -> & Hc & _ & _ & _ & _ & Href & Hnew).
    intros [= <- <-]. split; [done|]. split; [by symmetry|done].
  - rewrite (has_key_None _ _ Hid). run. intros [= <- <-].
    cbn. by rewrite app_nil_r.
Qed.

Lemma classify_recognised id_to_doc errors : ∀ r m r' m',
  forallb recognised errors = true →
  classify id_to_doc r errors m = (Ok r', m') →
  contents r' m' = contents r m ++ omap (attributed id_to_doc) errors ∧
  (r' = SelfQueue ↔ r = SelfQueue) ∧
  (∀ l, r = NewList l → m' = m).
Proof.
  induction errors as [|error rest IH]; intros r m r' m'.
  - rewrite classify_nil. intros _ [= <- <-]. cbn.
    by rewrite app_nil_r.
  - cbn [forallb]. intros [Hrec Hrest]%andb_true_iff.
    rewrite classify_cons.
    destruct (classify_step id_to_doc r error m) as [[r1|e] m1] eqn:Hstep;
      [|done].
    apply classify_step_recognised in Hstep as (Hc1 & Hr1 & Hm1); [|done].
    intros Hc. apply IH in Hc as (Hc2 & Hr2 & Hm2); [|done].
    split; [|split].
    + rewrite Hc2, Hc1, <- app_assoc. f_equal.
      cbn. by destruct (attributed id_to_doc error).
    + by rewrite Hr2.
    + intros l ->. rewrite <- (Hm1 l eq_refl).
      destruct r1 as [l1|]; [by eapply Hm2|].
      by destruct Hr1 as [Hr1 _]; specialize (Hr1 eq_refl).
Qed.

(** Once [send_again] is the queue itself it stays so, and every
    document the loop appends from then on lands in [self.queue]. *)
Lemma classify_aliased id_to_doc errors : ∀ m r' m',
  classify id_to_doc SelfQueue errors m = (Ok r', m') →
  r' = SelfQueue ∧
  queue (self m') = queue (self m) ++ omap (attributed id_to_doc) errors.
Proof.
  induction errors as [|error rest IH]; intros m r' m'.
  - rewrite classify_nil. intros [= <- <-]. by rewrite app_nil_r.
  - rewrite classify_cons.
    destruct (recognised error) eqn:Hrec.
    + destruct (classify_step id_to_doc SelfQueue error m)
        as [[r1|e] m1] eqn:Hstep; [|done].
      apply classify_step_recognised in Hstep as (Hc1 & Hr1 & _); [|done].
      assert (r1 = SelfQueue) as -> by by apply Hr1.
      intros Hc. apply IH in Hc as [-> Hq']. split; [done|].
      cbn in Hc1. rewrite Hq', Hc1, <- app_assoc. f_equal.
      cbn. by destruct (attributed id_to_doc error).
    + rewrite classify_step_unrecognised by done.
      intros Hc. apply IH in Hc as [-> Hq']. split; [done|].
      rewrite Hq'. cbn. unfold attributed at 2. by rewrite Hrec.
Qed.

Lemma classify_app id_to_doc errors1 errors2 : ∀ r m,
  classify id_to_doc r (errors1 ++ errors2) m =
  match classify id_to_doc r errors1 m with
  | (Ok r1, m1) => classify id_to_doc r1 errors2 m1
  | (Raise e, m1) => (Raise e, m1)
  end.
Proof.
  induction errors1 as [|error rest IH]; intros r m; cbn [app].
  - by rewrite classify_nil.
  - rewrite !classify_cons.
    destruct (classify_step id_to_doc r error m) as [[r1|e] m1]; [|done].
    apply IH.
Qed.

(** The retry list when the first unrecognised entry is [error]: what
    was collected before it is dropped, and the queue is followed by
    the documents appended after it. *)
Lemma classify_batch_level id_to_doc pre error post l m r' m' :
  forallb recognised pre = true →
  recognised error = false →
  classify id_to_doc (NewList l) (pre ++ error :: post) m = (Ok r', m') →
  contents r' m' = queue (self m) ++ omap (attributed id_to_doc) post.
Proof.
  intros Hpre Herr. rewrite classify_app.
  destruct (classify id_to_doc (NewList l) pre m) as [[r1|e] m1] eqn:Hc1;
    [|done].
  apply classify_recognised in Hc1 as (_ & _ & Hm1); [|done].
  rewrite (Hm1 l eq_refl), classify_cons.
  rewrite classify_step_unrecognised by done.
  intros Hc. apply classify_aliased in Hc as [-> Hq]. exact Hq.
Qed.

(** *** The paths through [send_all] *)

(** [send_all] always returns, along one of these paths. *)
Lemma send_all_Flush m :
  Flush m (send_all m).1 (send_all m).2.
Proof.
  unfold send_all. run.
  destruct (queue (self m)) as [|d q] eqn:Hq; cbn.
  { by apply Flush_empty. }
  assert (Hne : queue (self m) ≠ []) by (by rewrite Hq).
  destruct (bulk (world m) (d :: q)) as [[n errors] w1] eqn:Hb; cbn.
  rewrite <- Hq in Hb.
  destruct errors as [|error errors]; cbn.
  { replace ((trace m ++ [EvSendAll]) ++ [EvBulk (d :: q)])
      with (trace (first_sent m w1))
      by (by rewrite <- Hq, <- app_assoc).
    by eapply (Flush_sent m). }
  set (m1 := {| self := self m; world := w1;
                trace := (trace m ++ [EvSendAll]) ++ [EvBulk (d :: q)] |}).
  assert (Hm1 : m1 = first_sent m w1).
  { subst m1. unfold first_sent. by rewrite Hq, <- app_assoc. }
  fold m1. rewrite <- Hq, Hm1.
  destruct (classify _ _ _ (first_sent m w1)) as [res m2] eqn:Hc.
  destruct (classify_frame _ _ _ _ _ _ Hc) as (_ & _ & _ & _ & Hres).
  destruct res as [r|e]; cbn.
  - rewrite deref_contents.
    destruct (contents r m2) as [|d2 again] eqn:Hagain; cbn.
    { by eapply Flush_no_retry. }
    rewrite <- Hagain.
    destruct (bulk (world m2) (contents r m2)) as [[n2 errors2] w2] eqn:Hb2.
    cbn. destruct errors2 as [|error2 errors2]; cbn.
    + eapply Flush_retry_ok; eauto. by rewrite Hagain.
    + eapply Flush_retry_failed; eauto. by rewrite Hagain.
  - destruct Hres as [[= ->]|[? [=]]]. by eapply Flush_key_error.
Qed.

(** Case analysis on a run of [send_all], with what the loop left
    unchanged spelled out. *)
Ltac flush_cases m res m' :=
  let HF := fresh "HF" in
  pose proof (send_all_Flush m) as HF;
  destruct (send_all m) as [res m']; cbn in HF;
  destruct HF as
    [ Hq
    | n w1 Hq Hb
    | n errors w1 m2 Hq Hb He Hc
    | n errors w1 r m2 Hq Hb He Hc Hagain
    | n errors w1 r m2 n2 w2 Hq Hb He Hc Hagain Hb2
    | n errors w1 r m2 n2 errors2 w2 Hq Hb He Hc Hagain Hb2 He2 ];
  try (destruct (classify_frame _ _ _ _ _ _ Hc)
         as (Hw2 & Ht2 & Hs2 & Hq2 & _); cbn in Hw2, Ht2, Hs2, Hq2).

Lemma dispatches_bulks (bs : list (list Doc.t)) :
  dispatches (EvBulk <$> bs) = bs.
Proof. unfold dispatches. induction bs; cbn; congruence. Qed.

(** ** The retry bound *)

(** C1. A flush dispatches the pending queue at most twice: the events
    of [send_all] after its entry are zero, one or two bulk calls and
    nothing else, the first with the pending queue. When there are
    two and the cluster answers the second with a non-empty failure
    list, the flush ends there by raising [RetryError]. *)
Theorem send_all_retry_bound m :
  ∃ batches : list (list Doc.t),
    trace (send_all m).2
      = trace m ++ EvSendAll :: (EvBulk <$> batches) ∧
    (length batches ≤ 2)%nat ∧
    (∀ b, head batches = Some b → b = queue (self m)) ∧
    (∀ b1 b2, batches = [b1; b2] →
       let answer1 := bulk (world m) b1 in
       let answer2 := bulk answer1.2 b2 in
       answer1.1.2 ≠ [] ∧
       world (send_all m).2 = answer2.2 ∧
       (answer2.1.2 ≠ [] → (send_all m).1 = Raise RetryError) ∧
       (answer2.1.2 = [] → (send_all m).1 = Ok tt)) ∧
    ((send_all m).1 = Raise RetryError → length batches = 2%nat).
Proof.
  flush_cases m res m'; cbn.
  - exists []. cbn. repeat split; try done; lia.
  - exists [queue (self m)]. cbn.
    repeat split; try done; try lia. by intros b [= <-].
  - exists [queue (self m)]. cbn. rewrite Ht2.
    repeat split; try done; try lia. by intros b [= <-].
  - exists [queue (self m)]. cbn. rewrite Ht2.
    repeat split; try done; try lia. by intros b [= <-].
  - exists [queue (self m); contents r m2]. cbn.
    rewrite Ht2, <- app_assoc. cbn.
    split; [done|]. split; [lia|]. split; [by intros b [= <-]|].
    split; [|done]. intros b1 b2 [= <- <-]. cbn.
    rewrite Hb. cbn. rewrite <- Hw2, Hb2. cbn. done.
  - exists [queue (self m); contents r m2]. cbn.
    rewrite Ht2, <- app_assoc. cbn.
    split; [done|]. split; [lia|]. split; [by intros b [= <-]|].
    split; [|done]. intros b1 b2 [= <- <-]. cbn.
    rewrite Hb. cbn. rewrite <- Hw2, Hb2. cbn. done.
Qed.

Lemma flushes_app (t1 t2 : list Event) :
  flushes (t1 ++ t2) = (flushes t1 + flushes t2)%nat.
Proof. unfold flushes. by rewrite List.filter_app, length_app. Qed.

Lemma flushes_bulks (bs : list (list Doc.t)) : flushes (EvBulk <$> bs) = 0%nat.
Proof. unfold flushes. by induction bs. Qed.

(** What a flush of a non-empty queue leaves behind. *)
Lemma send_all_nonempty m :
  queue (self m) ≠ [] →
  ∃ batches : list (list Doc.t),
    trace (send_all m).2
      = trace m ++ EvSendAll :: EvBulk (queue (self m))
          :: (EvBulk <$> batches) ∧
    (length batches ≤ 1)%nat ∧
    ((send_all m).1 = Ok tt → self (send_all m).2 = emptied) ∧
    ((send_all m).1 = Raise RetryError → length batches = 1%nat) ∧
    (∀ e, (send_all m).1 = Raise e →
       e ≠ ValueError ∧
       size (self (send_all m).2) = size (self m) ∧
       queue (self m) `prefix_of` queue (self (send_all m).2)).
Proof.
  intros Hne. flush_cases m res m'; cbn; try done.
  - exists []. cbn. repeat split; try done; lia.
  - exists []. cbn. rewrite Ht2.
    repeat split; try done; try lia; by simplify_eq.
  - exists []. cbn. rewrite Ht2. repeat split; try done; lia.
  - exists [contents r m2]. cbn. rewrite Ht2, <- app_assoc.
    repeat split; try done; lia.
  - exists [contents r m2]. cbn. rewrite Ht2, <- app_assoc.
    repeat split; try done; try lia; by simplify_eq.
Qed.

Lemma send_all_empty m :
  queue (self m) = [] →
  send_all m = (Ok tt, with_trace m (trace m ++ [EvSendAll])).
Proof. intros Hq. unfold send_all. run. by rewrite Hq. Qed.

(** ** The reset *)

(** C9. A flush that returns has emptied the queue and, whenever
    there was something to send, zeroed the total (so on a queue whose
    total is accurate it leaves the queue empty and the total 0, with
    or without a retry); a flush that raises (in particular
    [RetryError], after exactly two dispatches) has reset nothing: the
    total is what it was and the documents of the queue are still
    pending. *)
Theorem send_all_reset m :
  let out := send_all m in
  (out.1 = Ok tt →
     queue (self out.2) = [] ∧
     (queue (self m) ≠ [] → size (self out.2) = 0) ∧
     (budget_ok (self m) → self out.2 = emptied)) ∧
  (∀ e, out.1 = Raise e →
     size (self out.2) = size (self m) ∧
     queue (self m) `prefix_of` queue (self out.2) ∧
     queue (self out.2) ≠ []) ∧
  (out.1 = Raise RetryError →
     length (dispatches (trace out.2))
       = (length (dispatches (trace m)) + 2)%nat).
Proof.
  cbn. destruct (decide (queue (self m) = [])) as [Hnil|Hne].
  - rewrite (send_all_empty _ Hnil). cbn. repeat split; try done.
    unfold budget_ok. destruct (self m) as [q total]. cbn in *.
    by intros ->; subst q.
  - destruct (send_all_nonempty m Hne)
      as (batches & Ht & Hlen & Hok & Hretry & Hraise).
    split; [|split].
    + intros Hres. rewrite (Hok Hres). by repeat split.
    + intros e Hres. destruct (Hraise e Hres) as (_ & Hs & Hpre).
      repeat split; try done. intros Hnil. rewrite Hnil in Hpre.
      by apply prefix_nil_inv in Hpre.
    + intros Hres. rewrite Ht. unfold dispatches.
      rewrite omap_app, length_app. cbn.
      fold (dispatches (EvBulk <$> batches)).
      rewrite dispatches_bulks, (Hretry Hres). lia.
Qed.

(** ** Appending *)

Lemma append_document_put doc m :
  append_document doc m = (Ok tt, put doc m).
Proof.
  unfold append_document, put, charge. run.
  destruct (truthy (Doc.content doc)); [done|]. by rewrite Z.add_0_r.
Qed.

Lemma EVENT_PREFIX_Created : EVENT_PREFIX !!! "Created" = "ObjectCreated:".
Proof. reflexivity. Qed.

Lemma EVENT_PREFIX_Removed : EVENT_PREFIX !!! "Removed" = "ObjectRemoved:".
Proof. reflexivity. Qed.

(** [append] on an event it accepts: read the clock, queue the
    document, flush when the total has reached the ceiling. *)
Lemma append_accepted event_type sz last_modified bucket ext key text etag
    version_id m :
  isinstance_str_or_none version_id = true →
  startswith event_type "ObjectCreated:"
    || startswith event_type "ObjectRemoved:" = true →
  let doc := body event_type sz last_modified bucket ext key text etag
                  version_id (utcnow (world m)).1 in
  let m1 := put doc {| self := self m; world := (utcnow (world m)).2;
                       trace := trace m |} in
  append event_type sz last_modified bucket
         ext key text etag version_id m
  = if bool_decide (QUEUE_LIMIT_BYTES ≤ size (self m1))
    then send_all m1 else (Ok tt, m1).
Proof.
  intros Hv He. unfold append.
  rewrite Hv, EVENT_PREFIX_Created, EVENT_PREFIX_Removed, He. run.
  destruct (utcnow (world m)) as [now w1]. cbn.
  rewrite append_document_put. cbn. by case_bool_decide.
Qed.

Lemma append_skipped event_type sz last_modified bucket ext key text etag
    version_id m :
  isinstance_str_or_none version_id = true →
  startswith event_type "ObjectCreated:"
    || startswith event_type "ObjectRemoved:" = false →
  append event_type sz last_modified bucket
         ext key text etag version_id m = (Ok tt, m).
Proof.
  intros Hv He. unfold append.
  by rewrite Hv, EVENT_PREFIX_Created, EVENT_PREFIX_Removed, He.
Qed.

Lemma append_rejected event_type sz last_modified bucket ext key text etag
    version_id m :
  isinstance_str_or_none version_id = false →
  append event_type sz last_modified bucket
         ext key text etag version_id m = (Raise ValueError, m).
Proof. intros Hv. unfold append. by rewrite Hv. Qed.

Lemma send_all_not_value_error m :
  (send_all m).1 ≠ Raise ValueError.
Proof. by flush_cases m res m'. Qed.

(** C10. [append_document] puts the document at the end of the queue
    and adds its charge to the total, and that is all: it returns
    normally, the trace is the one it started with (no flush was
    entered, no batch dispatched) and the cluster is untouched, also
    when the new total is at or above [QUEUE_LIMIT_BYTES]. *)
Theorem append_document_never_dispatches doc m :
  let out := append_document doc m in
  out.1 = Ok tt ∧
  queue (self out.2) = queue (self m) ++ [doc] ∧
  size (self out.2)
    = (if truthy (Doc.content doc)
       then size (self m) + Z.min (Doc.size doc) ELASTIC_LIMIT_BYTES
       else size (self m)) ∧
  trace out.2 = trace m ∧
  world out.2 = world m ∧
  (QUEUE_LIMIT_BYTES ≤ size (self out.2) →
     flushes (trace out.2) = flushes (trace m) ∧
     dispatches (trace out.2) = dispatches (trace m) ∧
     queue (self out.2) ≠ []).
Proof.
  cbn. rewrite append_document_put. cbn. unfold charge.
  repeat split; try done.
  - destruct (truthy _); lia.
  - intros Hnil. by apply app_nil in Hnil as [_ [=]].
Qed.

(** C8. [append] raises [ValueError] exactly when [version_id] is
    neither a string nor [None]; it then stops at once: the queue, the
    total, the cluster and the trace are those it was called with. *)
Theorem append_value_error event_type sz last_modified bucket ext key text
    etag version_id m :
  let out := append event_type sz
                    last_modified bucket ext key text etag version_id m in
  (out.1 = Raise ValueError ↔
     version_id ≠ PyNone ∧ ∀ s, version_id ≠ PyStr s) ∧
  (out.1 = Raise ValueError → out.2 = m).
Proof.
  cbn. destruct (isinstance_str_or_none version_id) eqn:Hv.
  - assert (Hok : (append event_type sz
                     last_modified bucket ext key text etag version_id m).1
                  ≠ Raise ValueError).
    { destruct (startswith event_type "ObjectCreated:"
                || startswith event_type "ObjectRemoved:") eqn:He.
      - rewrite append_accepted by done. cbn.
        case_bool_decide; [apply send_all_not_value_error|done].
      - by rewrite append_skipped. }
    split; [|done]. split; [done|].
    intros [Hnone Hstr]. destruct version_id; try done. by destruct (Hstr s).
  - rewrite append_rejected by done. cbn.
    split; [|done]. split; [|done].
    intros _. by destruct version_id.
Qed.

(** C5. When [append] accepts an event and the document brings the
    total to [QUEUE_LIMIT_BYTES] or more, the call enters [send_all]
    exactly once (one or two dispatches), and if it returns the queue
    is empty and the total is 0. When the total stays below the
    ceiling the call leaves no event at all: the document is queued
    and the total is the new one. *)
Theorem append_threshold event_type sz last_modified bucket ext key text
    etag version_id m :
  isinstance_str_or_none version_id = true →
  startswith event_type "ObjectCreated:"
    || startswith event_type "ObjectRemoved:" = true →
  let total :=
    size (self m)
    + (if truthy text then Z.min sz ELASTIC_LIMIT_BYTES else 0) in
  let out := append event_type sz
                    last_modified bucket ext key text etag version_id m in
  ∃ evs,
    trace out.2 = trace m ++ evs ∧
    (QUEUE_LIMIT_BYTES ≤ total →
       flushes evs = 1%nat ∧
       (1 ≤ length (dispatches evs) ≤ 2)%nat ∧
       (out.1 = Ok tt →
          queue (self out.2) = [] ∧ size (self out.2) = 0)) ∧
    (total < QUEUE_LIMIT_BYTES →
       evs = [] ∧ out.1 = Ok tt ∧ size (self out.2) = total ∧
       ∃ doc, queue (self out.2) = queue (self m) ++ [doc]).
Proof.
  intros Hv He. cbn. rewrite append_accepted by done.
  set (doc := body _ _ _ _ _ _ _ _ _ _).
  set (m1 := put doc _).
  assert (Hsz : size (self m1)
                = size (self m)
                  + (if truthy text then Z.min sz ELASTIC_LIMIT_BYTES
                     else 0)) by done.
  assert (Hqu : queue (self m1) = queue (self m) ++ [doc]) by done.
  assert (Htr : trace m1 = trace m) by done.
  rewrite <- Hsz. clearbody m1. clear Hsz. case_bool_decide as Hlim.
  - assert (Hne : queue (self m1) ≠ []).
    { rewrite Hqu. intros Hnil. by apply app_nil in Hnil as [_ [=]]. }
    destruct (send_all_nonempty m1 Hne)
      as (batches & Ht & Hlen & Hok & _ & _).
    rewrite Htr in Ht.
    eexists. split; [exact Ht|]. split; [|lia]. intros _.
    split; [|split].
    + change (EvSendAll :: EvBulk (queue (self m1)) :: (EvBulk <$> batches))
        with ([EvSendAll] ++ (EvBulk <$> (queue (self m1) :: batches))).
      by rewrite flushes_app, flushes_bulks.
    + change (EvSendAll :: EvBulk (queue (self m1)) :: (EvBulk <$> batches))
        with ([EvSendAll] ++ (EvBulk <$> (queue (self m1) :: batches))).
      unfold dispatches. rewrite omap_app. cbn.
      fold (dispatches (EvBulk <$> batches)).
      rewrite dispatches_bulks. cbn. lia.
    + intros Hres. by rewrite (Hok Hres).
  - exists []. cbn. split; [by rewrite app_nil_r|]. split; [lia|].
    intros _. repeat split; eauto.
Qed.

(** ** The byte budget *)

Lemma budget_snoc q doc : budget (q ++ [doc]) = budget q + charge doc.
Proof.
  unfold budget, charge. rewrite List.filter_app, fmap_app. cbn.
  induction (_ <$> List.filter _ q) as [|z zs IH]; cbn.
  - destruct (truthy _); cbn; lia.
  - rewrite IH. lia.
Qed.

Lemma send_all_budget m :
  budget_ok (self m) →
  (send_all m).1 = Ok tt →
  budget_ok (self (send_all m).2).
Proof.
  intros Hinv. destruct (decide (queue (self m) = [])) as [Hnil|Hne].
  - by rewrite (send_all_empty _ Hnil).
  - destruct (send_all_nonempty m Hne) as (_ & _ & _ & Hok & _).
    intros Hres. by rewrite (Hok Hres).
Qed.

Lemma put_budget doc m : budget_ok (self m) → budget_ok (self (put doc m)).
Proof.
  unfold budget_ok, put. cbn [self queue size].
  intros ->. by rewrite budget_snoc.
Qed.

Lemma call_budget c m :
  budget_ok (self m) →
  (call c m).1 = Ok tt →
  budget_ok (self (call c m).2).
Proof.
  intros Hinv. destruct c as [event_type sz lm bucket ext key text etag v
                             |doc|]; cbn.
  - destruct (isinstance_str_or_none v) eqn:Hv;
      [|by rewrite append_rejected].
    destruct (startswith event_type "ObjectCreated:"
              || startswith event_type "ObjectRemoved:") eqn:He;
      [|by rewrite append_skipped].
    rewrite append_accepted by done. case_bool_decide.
    + by apply send_all_budget, put_budget.
    + intros _. by apply put_budget.
  - rewrite append_document_put. intros _. by apply put_budget.
  - by apply send_all_budget.
Qed.

Lemma calls_budget cs : ∀ m m',
  budget_ok (self m) →
  calls cs m = (Ok tt, m') →
  budget_ok (self m').
Proof.
  induction cs as [|c cs IH]; intros m m' Hinv; cbn.
  - by intros [= <-].
  - unfold mbind, M_bind.
    pose proof (call_budget c m Hinv) as Hc.
    destruct (call c m) as [[[]|e] m1]; [|done].
    intros Hrest. eapply IH; [|exact Hrest]. by apply Hc.
Qed.

(** C4. From a fresh queue, after any sequence of calls of [append],
    [append_document] and [send_all] that all returned, [self.size] is
    the sum of [min(doc["size"], ELASTIC_LIMIT_BYTES)] over the pending
    documents with non-empty text. A document with empty text leaves
    the total where it was when it goes through [append_document], and
    never raises it when it goes through [append]. *)
Theorem budget_invariant :
  (∀ cs (w : W) m',
     calls cs
           {| self := init; world := w; trace := [] |} = (Ok tt, m') →
     size (self m') = budget (queue (self m'))) ∧
  (∀ doc m,
     Doc.content doc = "" →
     size (self (append_document doc m).2)
       = size (self m)) ∧
  (∀ event_type sz last_modified bucket ext key etag version_id m,
     size (self (append event_type sz
                        last_modified bucket ext key "" etag version_id
                        m).2)
       ≤ size (self m)).
Proof.
  split; [|split].
  - intros cs w m' Hrun. by eapply (calls_budget cs _ m'); [|exact Hrun].
  - intros doc m Hc. rewrite append_document_put. cbn. unfold charge.
    rewrite Hc. cbn. lia.
  - intros event_type sz lm bucket ext key etag v m.
    destruct (isinstance_str_or_none v) eqn:Hv;
      [|by rewrite append_rejected].
    destruct (startswith event_type "ObjectCreated:"
              || startswith event_type "ObjectRemoved:") eqn:He;
      [|by rewrite append_skipped].
    rewrite append_accepted by done.
    set (m1 := put _ _).
    assert (Hsz : size (self m1) = size (self m)).
    { cbn. unfold charge. cbn. lia. }
    case_bool_decide as Hlim; [|cbn -[m1]; lia].
    assert (Hne : queue (self m1) ≠ []).
    { cbn. intros Hnil. by apply app_nil in Hnil as [_ [=]]. }
    destruct (send_all_nonempty m1 Hne) as (_ & _ & _ & Hok & _ & Hraise).
    destruct (send_all m1) as [[[]|e] m'] eqn:Hrun; cbn in *.
    + rewrite Hok by done. cbn. unfold QUEUE_LIMIT_BYTES in Hlim. lia.
    + destruct (Hraise e eq_refl) as (_ & -> & _). lia.
Qed.

(** ** The documents [append] builds *)

Lemma append_queues event_type sz last_modified bucket ext key text etag
    version_id m :
  isinstance_str_or_none version_id = true →
  startswith event_type "ObjectCreated:"
    || startswith event_type "ObjectRemoved:" = true →
  queues m
    (append event_type sz last_modified
            bucket ext key text etag version_id m).2
    (body event_type sz last_modified bucket ext key text etag version_id
          (utcnow (world m)).1).
Proof.
  intros Hv He. rewrite append_accepted by done.
  set (doc := body _ _ _ _ _ _ _ _ _ _). set (m1 := put doc _).
  assert (Hqu : queue (self m1) = queue (self m) ++ [doc]) by done.
  assert (Htr : trace m1 = trace m) by done.
  clearbody m1. case_bool_decide.
  - right. assert (Hne : queue (self m1) ≠ []).
    { rewrite Hqu. intros Hnil. by apply app_nil in Hnil as [_ [=]]. }
    destruct (send_all_nonempty m1 Hne) as (batches & Ht & _).
    rewrite Htr, Hqu in Ht. eauto.
  - by left.
Qed.

Lemma string_app_inj (k a b : string) : k +:+ a = k +:+ b → a = b.
Proof. induction k as [|c k IH]; cbn; [done|]. intros [= H]. auto. Qed.

(** C6, as the code has it. The identifier of the document [append]
    queues is [key], a colon and [str(version_id)]: the version id
    itself when it is a string, the text [None] when it is absent. Two
    events with the same key get the same identifier exactly when
    their version ids have the same text: always for the same version
    id, never for two different version strings, and for an absent
    version id against a version string only when that string is
    [None]. *)
Theorem append_identifier key
    event_type1 sz1 last_modified1 bucket1 ext1 text1 etag1 version_id1 m1
    event_type2 sz2 last_modified2 bucket2 ext2 text2 etag2 version_id2 m2 :
  isinstance_str_or_none version_id1 = true →
  isinstance_str_or_none version_id2 = true →
  startswith event_type1 "ObjectCreated:"
    || startswith event_type1 "ObjectRemoved:" = true →
  startswith event_type2 "ObjectCreated:"
    || startswith event_type2 "ObjectRemoved:" = true →
  ∃ doc1 doc2,
    queues m1
      (append event_type1 sz1 last_modified1
              bucket1 ext1 key text1 etag1 version_id1 m1).2 doc1 ∧
    queues m2
      (append event_type2 sz2 last_modified2
              bucket2 ext2 key text2 etag2 version_id2 m2).2 doc2 ∧
    Doc._id doc1
      = key +:+ ":" +:+ match version_id1 with
                        | PyStr v => v
                        | _ => "None"
                        end ∧
    (Doc._id doc1 = Doc._id doc2 ↔ py_str version_id1 = py_str version_id2) ∧
    (version_id1 = version_id2 → Doc._id doc1 = Doc._id doc2) ∧
    (∀ v1 v2, version_id1 = PyStr v1 → version_id2 = PyStr v2 →
       v1 ≠ v2 → Doc._id doc1 ≠ Doc._id doc2) ∧
    (∀ v2, version_id1 = PyNone → version_id2 = PyStr v2 →
       (Doc._id doc1 = Doc._id doc2 ↔ v2 = "None")).
Proof.
  intros Hv1 Hv2 He1 He2. eexists _, _.
  split; [by apply append_queues|]. split; [by apply append_queues|].
  cbn.
  assert (Hiff : key +:+ ":" +:+ py_str version_id1
                 = key +:+ ":" +:+ py_str version_id2
                 ↔ py_str version_id1 = py_str version_id2).
  { split; [|by intros ->].
    intros Heq. apply string_app_inj in Heq. by injection Heq. }
  split; [by destruct version_id1|]. split; [done|].
  split; [by intros ->|]. split.
  - intros v1 v2 -> -> Hne. rewrite Hiff. cbn. congruence.
  - intros v2 -> ->. rewrite Hiff. cbn. split; congruence.
Qed.

(** C7, as the code has it. The document [append] queues carries the
    text it was given, whatever the event; its operation is [delete]
    exactly when the event type starts with [ObjectRemoved:], and
    [index] otherwise. *)
Theorem append_operation event_type sz last_modified bucket ext key text
    etag version_id m :
  isinstance_str_or_none version_id = true →
  startswith event_type "ObjectCreated:"
    || startswith event_type "ObjectRemoved:" = true →
  ∃ doc,
    queues m
      (append event_type sz last_modified
              bucket ext key text etag version_id m).2 doc ∧
    Doc.content doc = text ∧
    (startswith event_type "ObjectRemoved:" = true →
       Doc._op_type doc = "delete") ∧
    (Doc._op_type doc = "delete" →
       startswith event_type "ObjectRemoved:" = true) ∧
    (startswith event_type "ObjectRemoved:" = false →
       Doc._op_type doc = "index").
Proof.
  intros Hv He. eexists. split; [by apply append_queues|].
  cbn. rewrite EVENT_PREFIX_Removed.
  by destruct (startswith event_type "ObjectRemoved:").
Qed.

(** ** The retry set *)

(** The loop runs to its end when every entry names a document that
    was sent. *)
Lemma classify_completes q errors :
  Forall (names_sent q) errors →
  ∀ r m, ∃ r' m', classify (id_to_doc_of q) r errors m = (Ok r', m').
Proof.
  induction 1 as [|error rest Hname _ IH]; intros r m.
  - rewrite classify_nil. eauto.
  - rewrite classify_cons.
    enough (∃ r1 m1, classify_step (id_to_doc_of q) r error m = (Ok r1, m1))
      as (r1 & m1 & ->) by apply IH.
    unfold classify_step. destruct (recognised error) eqn:Hrec; [|run; eauto].
    destruct (inner_of error !! "_id") as [i|] eqn:Hid.
    + destruct (has_key_Some _ _ _ Hid) as [-> ->].
      destruct (Hname i Hrec Hid) as (doc & Hin & <-).
      destruct (id_to_doc_of_known q doc Hin) as [doc' ->].
      destruct (list_append_contents r doc' m) as (r1 & m1 & -> & _).
      eauto.
    + rewrite (has_key_None _ _ Hid). run. eauto.
Qed.

Lemma first_unrecognised errors error :
  error ∈ errors → recognised error = false →
  ∃ pre error' post,
    errors = pre ++ error' :: post ∧
    forallb recognised pre = true ∧ recognised error' = false.
Proof.
  intros Hin Hrec. induction errors as [|e rest IH].
  - by apply elem_of_nil in Hin.
  - destruct (recognised e) eqn:He.
    + apply elem_of_cons in Hin as [->|Hin]; [congruence|].
      destruct (IH Hin) as (pre & error' & post & -> & Hpre & Herr).
      exists (e :: pre), error', post. cbn. by rewrite He, Hpre.
    + by exists [], e, rest.
Qed.

(** With an unrecognised entry in the failure list, the retry list
    starts with the whole queue. *)
Lemma classify_whole_batch id_to_doc errors error l m r' m' :
  error ∈ errors → recognised error = false →
  classify id_to_doc (NewList l) errors m = (Ok r', m') →
  queue (self m) `prefix_of` contents r' m'.
Proof.
  intros Hin Hrec Hc.
  destruct (first_unrecognised _ _ Hin Hrec)
    as (pre & error' & post & -> & Hpre & Herr).
  rewrite (classify_batch_level _ _ _ _ _ _ _ _ Hpre Herr Hc).
  by apply prefix_app_r.
Qed.

(** An entry that names a document of the queue adds one document with
    that identifier to the retry list. *)
Lemma classify_step_names q r (error : BulkError) (inner : Inner) i m :
  error !! "delete" = Some inner
  ∨ (error !! "delete" = None ∧ error !! "index" = Some inner) →
  inner !! "_id" = Some i →
  (∃ doc, doc ∈ q ∧ Doc._id doc = i) →
  ∃ doc r' m',
    classify_step (id_to_doc_of q) r error m = (Ok r', m') ∧
    doc ∈ q ∧ Doc._id doc = i ∧
    contents r' m' = contents r m ++ [doc].
Proof.
  intros Hsel Hid (doc0 & Hin & <-).
  destruct (inner_of_selected _ _ Hsel) as [Hrec Hinner].
  destruct (id_to_doc_of_known q doc0 Hin) as [doc Hdoc].
  destruct (id_to_doc_of_lookup _ _ _ Hdoc) as [Hdin Hdid].
  unfold classify_step. rewrite Hrec, Hinner.
  destruct (has_key_Some _ _ _ Hid) as [-> ->]. rewrite Hdoc.
  destruct (list_append_contents r doc m) as (r' & m' & -> & Hc & _).
  by exists doc, r', m'.
Qed.

(** C2. In the loop of [send_all], a failure entry under [delete] or
    [index] whose [_id] is that of a document of the queue adds one
    document to the retry list, a document of the queue with that
    identifier, and nothing else; an entry with neither key makes the
    retry list the queue itself. So when the first answer is one entry
    that names a document, the flush dispatches that document alone a
    second time; and when the first answer holds an entry with neither
    key (and names only documents that were sent), the flush dispatches
    a second batch that starts with every document of the first. *)
Theorem retry_attribution :
  (∀ q r (error : BulkError) (inner : Inner) i m,
     error !! "delete" = Some inner
     ∨ (error !! "delete" = None ∧ error !! "index" = Some inner) →
     inner !! "_id" = Some i →
     (∃ doc, doc ∈ q ∧ Doc._id doc = i) →
     ∃ doc r' m',
       classify_step (id_to_doc_of q) r error m = (Ok r', m') ∧
       doc ∈ q ∧ Doc._id doc = i ∧
       contents r' m' = contents r m ++ [doc]) ∧
  (∀ id_to_doc r (error : BulkError) m,
     error !! "index" = None → error !! "delete" = None →
     ∃ r',
       classify_step id_to_doc r error m = (Ok r', m) ∧
       contents r' m = queue (self m)) ∧
  (∀ m (error : BulkError),
     let q := queue (self m) in
     let errors := (bulk (world m) q).1.2 in
     q ≠ [] →
     Forall (names_sent q) errors →
     error ∈ errors →
     error !! "index" = None → error !! "delete" = None →
     ∃ again,
       trace (send_all m).2
         = trace m ++ [EvSendAll; EvBulk q; EvBulk again] ∧
       q `prefix_of` again) ∧
  (∀ m (error : BulkError) (inner : Inner) i,
     let q := queue (self m) in
     q ≠ [] →
     (bulk (world m) q).1.2 = [error] →
     error !! "delete" = Some inner
     ∨ (error !! "delete" = None ∧ error !! "index" = Some inner) →
     inner !! "_id" = Some i →
     (∃ doc, doc ∈ q ∧ Doc._id doc = i) →
     ∃ doc,
       doc ∈ q ∧ Doc._id doc = i ∧
       trace (send_all m).2
         = trace m ++ [EvSendAll; EvBulk q; EvBulk [doc]]).
Proof.
  split; [|split; [|split]]; cycle 3.
  { intros m error inner i q Hne Hone Hsel Hid Hknown. subst q.
    assert (Hloop : ∀ w1,
              ∃ doc r' m',
                classify (id_to_doc_of (queue (self m))) (NewList []) [error]
                         (first_sent m w1) = (Ok r', m') ∧
                doc ∈ queue (self m) ∧ Doc._id doc = i ∧
                contents r' m' = [doc]).
    { intros w1.
      destruct (classify_step_names _ (NewList []) _ _ _ (first_sent m w1)
                  Hsel Hid Hknown) as (doc & r' & m' & Hstep & Hin & Hd & Hc).
      exists doc, r', m'. by rewrite classify_cons, Hstep, classify_nil. }
    flush_cases m res m'; try done;
      rewrite Hb in Hone; cbn [fst snd] in Hone; try done; subst errors;
      destruct (Hloop w1) as (doc & r0 & m0 & Hrun & Hin & Hd & Hcon);
      rewrite Hrun in Hc; try done;
      injection Hc as <- <-.
    - by rewrite Hcon in Hagain.
    - exists doc. cbn. by rewrite Hcon, Ht2, <- app_assoc.
    - exists doc. cbn. by rewrite Hcon, Ht2, <- app_assoc. }
  - apply classify_step_names.
  - intros id_to_doc r error m Hi Hd. exists SelfQueue.
    rewrite classify_step_unrecognised; [done|].
    by apply unrecognised_keys.
  - intros m error q errors Hne Hnames Hin Hi Hd.
    assert (Hrec : recognised error = false) by by apply unrecognised_keys.
    subst q errors.
    flush_cases m res m'; try done;
      rewrite Hb in Hin, Hnames; cbn [fst snd] in Hin, Hnames |- *.
    + by apply elem_of_nil in Hin.
    + destruct (classify_completes _ _ Hnames (NewList []) (first_sent m w1))
        as (? & ? & Hok). congruence.
    + pose proof (classify_whole_batch _ _ _ _ _ _ _ Hin Hrec Hc) as Hpre.
      rewrite Hagain in Hpre. by apply prefix_nil_inv in Hpre.
    + exists (contents r m2). cbn.
      rewrite Ht2, <- app_assoc. split; [done|].
      by apply (classify_whole_batch _ _ _ _ _ _ _ Hin Hrec Hc).
    + exists (contents r m2). cbn.
      rewrite Ht2, <- app_assoc. split; [done|].
      by apply (classify_whole_batch _ _ _ _ _ _ _ Hin Hrec Hc).
Qed.

(** C3, as the code has it. The retry list is not deduplicated. With
    only recognised entries it holds, in the order of the failure
    list, one document for each entry that names one. An unrecognised
    entry puts every document of the queue at the head of the retry
    list, and when the first such entry is followed by no entry that
    names a document, the retry list is the queue exactly: what was
    collected before that entry is dropped. *)
Theorem retry_set m errors r' m' :
  let q := queue (self m) in
  let id_to_doc := id_to_doc_of q in
  classify id_to_doc (NewList []) errors m = (Ok r', m') →
  (forallb recognised errors = true →
     contents r' m' = omap (attributed id_to_doc) errors) ∧
  (∀ error, error ∈ errors → recognised error = false →
     q `prefix_of` contents r' m') ∧
  (∀ pre error post,
     errors = pre ++ error :: post →
     forallb recognised pre = true →
     recognised error = false →
     (∀ e, e ∈ post → recognised e = true → inner_of e !! "_id" = None) →
     contents r' m' = q).
Proof.
  intros q id_to_doc Hc. split; [|split].
  - intros Hall.
    by destruct (classify_recognised _ _ _ _ _ _ Hall Hc) as [-> _].
  - intros error Hin Hrec.
    by apply (classify_whole_batch _ _ _ _ _ _ _ Hin Hrec Hc).
  - intros pre error post -> Hpre Herr Hpost.
    rewrite (classify_batch_level _ _ _ _ _ _ _ _ Hpre Herr Hc).
    enough (omap (attributed id_to_doc) post = []) as ->
      by by rewrite app_nil_r.
    clear Hc. induction post as [|e post IH]; [done|]. cbn.
    assert (attributed id_to_doc e = None) as ->.
    { unfold attributed. destruct (recognised e) eqn:He; [|done].
      rewrite (Hpost e) by (done || by left). done. }
    apply IH. intros e' Hin. apply Hpost. by right.
Qed.

(** * Further properties of the queue *)

(** ** Flushing *)

Lemma dispatches_app (t1 t2 : list Event) :
  dispatches (t1 ++ t2) = dispatches t1 ++ dispatches t2.
Proof. unfold dispatches. apply omap_app. Qed.

(** X1. A flush calls the cluster exactly when something is pending.
    On an empty queue [send_all] returns at once: the object and the
    cluster are as they were (the total is not reset either) and the
    trace only shows that [send_all] was entered. *)
Theorem send_all_dispatches_iff_pending m :
  let out := send_all m in
  (queue (self m) = [] →
     out.1 = Ok tt ∧ self out.2 = self m ∧ world out.2 = world m ∧
     trace out.2 = trace m ++ [EvSendAll]) ∧
  (dispatches (trace out.2) = dispatches (trace m) ↔ queue (self m) = []).
Proof.
  cbn. destruct (decide (queue (self m) = [])) as [Hnil|Hne].
  - rewrite (send_all_empty _ Hnil). cbn. split; [done|].
    split; [done|]. intros _. rewrite dispatches_app. cbn.
    by rewrite app_nil_r.
  - split; [done|]. split; [|done]. intros Heq.
    destruct (send_all_nonempty m Hne) as (batches & Ht & _).
    rewrite Ht, dispatches_app in Heq. cbn in Heq.
    apply (f_equal length) in Heq. rewrite length_app in Heq.
    cbn in Heq. lia.
Qed.

(** X2. When the cluster reports no failure for a non-empty queue, the
    flush is one dispatch of the whole queue, in order; it returns and
    leaves the queue empty and the total 0. *)
Theorem send_all_clean m :
  queue (self m) ≠ [] →
  (bulk (world m) (queue (self m))).1.2 = [] →
  send_all m
  = (Ok tt,
     {| self := {| queue := []; size := 0 |};
        world := (bulk (world m) (queue (self m))).2;
        trace := trace m ++ [EvSendAll; EvBulk (queue (self m))] |}).
Proof.
  intros Hne Hclean.
  flush_cases m res m'; try done;
    rewrite Hb in Hclean; cbn in Hclean; try done.
  by rewrite Hb.
Qed.

(** X3. A flush that returned has nothing left to send: a second
    [send_all] right after it makes no dispatch and changes nothing. *)
Theorem send_all_twice m :
  (send_all m).1 = Ok tt →
  let m' := (send_all m).2 in
  send_all m' = (Ok tt, with_trace m' (trace m' ++ [EvSendAll])).
Proof.
  intros Hok. cbn. apply send_all_empty.
  destruct (decide (queue (self m) = [])) as [Hnil|Hne].
  - by rewrite (send_all_empty _ Hnil).
  - destruct (send_all_nonempty m Hne) as (_ & _ & _ & Hemptied & _).
    by rewrite (Hemptied Hok).
Qed.

(** The retry list only ever holds documents of the queue the dictionary
    was built from. *)
Lemma classify_step_within q r error m res m' :
  classify_step (id_to_doc_of q) r error m = (res, m') →
  (∀ d, d ∈ contents r m → d ∈ q) →
  (∀ d, d ∈ queue (self m) → d ∈ q) →
  (∀ d, d ∈ queue (self m') → d ∈ q) ∧
  (∀ r', res = Ok r' → ∀ d, d ∈ contents r' m' → d ∈ q).
Proof.
  unfold classify_step. intros Hstep Hr Hq.
  destruct (recognised error).
  - destruct (has_key "_id" _).
    + destruct (id_to_doc_of q !! _) as [doc|] eqn:Hdoc.
      * apply id_to_doc_of_lookup in Hdoc as [Hin _].
        destruct r as [l|]; cbn in Hstep; injection Hstep as <- <-; cbn.
        -- split; [done|]. intros r' [= <-] d. cbn.
           rewrite elem_of_app, list_elem_of_singleton.
           intros [?| ->]; auto.
        -- split.
           ++ intros d. rewrite elem_of_app, list_elem_of_singleton.
              intros [?| ->]; auto.
           ++ intros r' [= <-] d. cbn.
              rewrite elem_of_app, list_elem_of_singleton.
              intros [?| ->]; auto.
      * injection Hstep as <- <-. by split.
    + injection Hstep as <- <-. split; [done|]. by intros r' [= <-].
  - injection Hstep as <- <-. split; [done|]. by intros r' [= <-].
Qed.

Lemma classify_within q errors : ∀ r m res m',
  classify (id_to_doc_of q) r errors m = (res, m') →
  (∀ d, d ∈ contents r m → d ∈ q) →
  (∀ d, d ∈ queue (self m) → d ∈ q) →
  (∀ d, d ∈ queue (self m') → d ∈ q) ∧
  (∀ r', res = Ok r' → ∀ d, d ∈ contents r' m' → d ∈ q).
Proof.
  induction errors as [|error rest IH]; intros r m res m'.
  - rewrite classify_nil. intros [= <- <-] Hr Hq. split; [done|].
    by intros r' [= <-].
  - rewrite classify_cons.
    destruct (classify_step (id_to_doc_of q) r error m) as [res1 m1] eqn:Hstep.
    intros Hrest Hr Hq.
    destruct (classify_step_within _ _ _ _ _ _ Hstep Hr Hq) as [Hq1 Hr1].
    destruct res1 as [r1|e].
    + eapply IH; [exact Hrest| |done]. by apply Hr1.
    + injection Hrest as <- <-. by split.
Qed.

(** X4. A flush never sends a document that was not pending when it
    began: every document of either batch is a document of the queue
    [send_all] was called on. *)
Theorem sent_documents_were_pending m :
  ∃ batches : list (list Doc.t),
    trace (send_all m).2 = trace m ++ EvSendAll :: (EvBulk <$> batches) ∧
    ∀ b doc, b ∈ batches → doc ∈ b → doc ∈ queue (self m).
Proof.
  assert (Hfirst : ∀ b doc,
            b ∈ [queue (self m)] → doc ∈ b → doc ∈ queue (self m)).
  { intros b doc Hb. by apply list_elem_of_singleton in Hb as ->. }
  assert (Hboth : ∀ w1 errors r m2,
            classify (id_to_doc_of (queue (self m))) (NewList []) errors
                     (first_sent m w1) = (Ok r, m2) →
            ∀ b doc, b ∈ [queue (self m); contents r m2] → doc ∈ b →
                     doc ∈ queue (self m)).
  { intros w1 errors r m2 Hc b doc Hb Hdoc.
    apply elem_of_cons in Hb as [->|Hb]; [done|].
    apply list_elem_of_singleton in Hb as ->.
    destruct (classify_within _ _ _ _ _ _ Hc) as [_ Hr]; [|done|by eauto].
    intros d Hd. by apply elem_of_nil in Hd. }
  flush_cases m res m'; cbn.
  - exists []. split; [done|]. intros b doc Hin. by apply elem_of_nil in Hin.
  - by exists [queue (self m)].
  - exists [queue (self m)]. by rewrite Ht2.
  - exists [queue (self m)]. by rewrite Ht2.
  - exists [queue (self m); contents r m2].
    rewrite Ht2, <- app_assoc. split; [done|]. by eapply Hboth.
  - exists [queue (self m); contents r m2].
    rewrite Ht2, <- app_assoc. split; [done|]. by eapply Hboth.
Qed.

(** ** Failure entries at the edges *)

(** Entries the loop recognises but that carry no [_id] leave the retry
    list and the machine as they were. *)
Lemma classify_without_id id_to_doc errors : ∀ r m,
  (∀ error, error ∈ errors →
     recognised error = true ∧ inner_of error !! "_id" = None) →
  classify id_to_doc r errors m = (Ok r, m).
Proof.
  induction errors as [|error rest IH]; intros r m Hall.
  - by rewrite classify_nil.
  - rewrite classify_cons.
    destruct (Hall error) as [Hrec Hid]; [by left|].
    unfold classify_step. rewrite Hrec, (has_key_None _ _ Hid).
    apply IH. intros e He. apply Hall. by right.
Qed.

(** X5. Failures that name no document are dropped: when every entry of
    the first answer is under [index] or [delete] but has no [_id], the
    flush makes no second dispatch, returns normally and empties the
    queue, although the cluster reported failures. *)
Theorem failures_without_id_are_dropped m :
  let q := queue (self m) in
  let answer := bulk (world m) q in
  q ≠ [] →
  answer.1.2 ≠ [] →
  (∀ error, error ∈ answer.1.2 →
     recognised error = true ∧ inner_of error !! "_id" = None) →
  send_all m
  = (Ok tt,
     {| self := {| queue := []; size := 0 |};
        world := answer.2;
        trace := trace m ++ [EvSendAll; EvBulk q] |}).
Proof.
  intros q answer Hne Herrors Hall. subst q answer.
  flush_cases m res m'; try done;
    rewrite Hb in Herrors, Hall |- *; cbn [fst snd] in Herrors, Hall |- *;
    try done;
    rewrite (classify_without_id _ _ _ _ Hall) in Hc;
    try done; injection Hc as <- <-; done.
Qed.

(** X6. A failure entry whose [_id] is the identifier of no pending
    document makes the flush raise [KeyError] at that entry: the first
    dispatch is the only one, and nothing is reset. *)
Theorem unknown_identifier_raises m pre error post i :
  let q := queue (self m) in
  let answer := bulk (world m) q in
  q ≠ [] →
  answer.1.2 = pre ++ error :: post →
  Forall (names_sent q) pre →
  recognised error = true →
  inner_of error !! "_id" = Some i →
  (∀ doc, doc ∈ q → Doc._id doc ≠ i) →
  (send_all m).1 = Raise KeyError ∧
  trace (send_all m).2 = trace m ++ [EvSendAll; EvBulk q] ∧
  world (send_all m).2 = answer.2 ∧
  size (self (send_all m).2) = size (self m) ∧
  q `prefix_of` queue (self (send_all m).2).
Proof.
  intros q answer Hne Herrors Hpre Hrec Hid Hnone. subst q answer.
  assert (Hmiss : id_to_doc_of (queue (self m)) !! i = None).
  { destruct (id_to_doc_of (queue (self m)) !! i) as [doc|] eqn:Hdoc; [|done].
    apply id_to_doc_of_lookup in Hdoc as [Hin Hd]. by destruct (Hnone doc). }
  assert (Hloop : ∀ m1, ∃ m2,
            classify (id_to_doc_of (queue (self m))) (NewList [])
                     (pre ++ error :: post) m1 = (Raise KeyError, m2)).
  { intros m1. rewrite classify_app.
    destruct (classify_completes _ _ Hpre (NewList []) m1)
      as (r1 & m2 & ->).
    rewrite classify_cons. unfold classify_step.
    rewrite Hrec. destruct (has_key_Some _ _ _ Hid) as [-> ->].
    rewrite Hmiss. by exists m2. }
  flush_cases m res m';
    try done; rewrite Hb in Herrors |- *; cbn [fst snd] in Herrors |- *.
  - by destruct pre.
  - subst errors. destruct (Hloop (first_sent m w1)) as [m3 Hrun].
    by rewrite Hrun in Hc.
  - subst errors. destruct (Hloop (first_sent m w1)) as [m3 Hrun].
    by rewrite Hrun in Hc.
  - subst errors. destruct (Hloop (first_sent m w1)) as [m3 Hrun].
    by rewrite Hrun in Hc.
  - subst errors. destruct (Hloop (first_sent m w1)) as [m3 Hrun].
    by rewrite Hrun in Hc.
Qed.

(** X7. In the dictionary [send_all] builds from the queue, an
    identifier stands for the last pending document that carries it:
    when a document was queued twice, a failure naming it retries the
    later copy. *)
Theorem id_to_doc_last_wins q i :
  id_to_doc_of q !! i = last (filter (λ doc, Doc._id doc = i) q).
Proof.
  unfold id_to_doc_of.
  enough (∀ acc : gmap string Doc.t,
            foldl (λ acc d, <[Doc._id d := d]> acc) acc q !! i
            = match last (filter (λ doc, Doc._id doc = i) q) with
              | Some doc => Some doc
              | None => acc !! i
              end) as H.
  { rewrite H. by destruct (last _). }
  induction q as [|d q IH]; intros acc; [done|]. cbn [foldl].
  rewrite IH, filter_cons. case_decide as Hd.
  - rewrite last_cons. destruct (last (filter _ q)); [done|].
    by rewrite Hd, lookup_insert_eq.
  - destruct (last (filter _ q)); [done|].
    by rewrite lookup_insert_ne.
Qed.

(** While [send_again] is the list the loop created, the loop changes
    nothing outside it. *)
Lemma classify_fresh_frame id_to_doc errors : ∀ l m res m',
  forallb recognised errors = true →
  classify id_to_doc (NewList l) errors m = (res, m') →
  m' = m.
Proof.
  induction errors as [|error rest IH]; intros l m res m'.
  - rewrite classify_nil. by intros _ [= _ <-].
  - cbn [forallb]. intros [Hrec Hrest]%andb_true_iff.
    rewrite classify_cons. unfold classify_step. rewrite Hrec.
    destruct (has_key "_id" _); [|by apply IH].
    destruct (id_to_doc !! _) as [doc|]; [by apply IH|].
    by intros [= _ <-].
Qed.

(** X8. When every entry of the first answer is under [index] or
    [delete], a flush that raises (on an unknown identifier, or after
    the failed retry) leaves the object exactly as it was: same queue,
    same total. *)
Theorem recognised_failures_leave_queue m e :
  forallb recognised (bulk (world m) (queue (self m))).1.2 = true →
  (send_all m).1 = Raise e →
  self (send_all m).2 = self m.
Proof.
  intros Hall.
  flush_cases m res m'; try done; intros _;
    rewrite Hb in Hall; cbn [fst snd] in Hall;
    by rewrite (classify_fresh_frame _ _ _ _ _ _ Hall Hc).
Qed.

(** ** Appending, again *)

Lemma event_op_type_None event_type :
  event_op_type event_type = None ↔
  startswith event_type "ObjectCreated:"
    || startswith event_type "ObjectRemoved:" = false.
Proof.
  unfold event_op_type.
  rewrite EVENT_PREFIX_Created, EVENT_PREFIX_Removed.
  destruct (startswith event_type "ObjectCreated:"),
    (startswith event_type "ObjectRemoved:"); by cbn.
Qed.

(** No event type starts with both prefixes. *)
Lemma created_not_removed event_type :
  startswith event_type "ObjectCreated:" = true →
  startswith event_type "ObjectRemoved:" = false.
Proof.
  unfold startswith. intros Hc.
  destruct (String.prefix "ObjectRemoved:" event_type) eqn:Hr; [|done].
  apply String.prefix_correct in Hc, Hr. cbn in Hc, Hr. congruence.
Qed.


Lemma send_all_below_ceiling m :
  size (self m) < QUEUE_LIMIT_BYTES →
  (send_all m).1 = Ok tt →
  size (self (send_all m).2) < QUEUE_LIMIT_BYTES.
Proof.
  intros Hlt. destruct (decide (queue (self m) = [])) as [Hnil|Hne].
  - by rewrite (send_all_empty _ Hnil).
  - destruct (send_all_nonempty m Hne) as (_ & _ & _ & Hok & _).
    intros Hres. by rewrite (Hok Hres).
Qed.

Lemma call_below_ceiling c m :
  thresholded c = true →
  size (self m) < QUEUE_LIMIT_BYTES →
  (call c m).1 = Ok tt →
  size (self (call c m).2) < QUEUE_LIMIT_BYTES.
Proof.
  intros Hc Hlt.
  destruct c as [event_type sz lm bucket ext key text etag v|doc|];
    cbn in *; [|done|by apply send_all_below_ceiling].
  destruct (isinstance_str_or_none v) eqn:Hv;
    [|by rewrite append_rejected].
  destruct (startswith event_type "ObjectCreated:"
            || startswith event_type "ObjectRemoved:") eqn:He;
    [|by rewrite append_skipped].
  rewrite append_accepted by done.
  set (m1 := put _ _). case_bool_decide as Hlim.
  - assert (Hne : queue (self m1) ≠ []).
    { cbn. intros Hnil. by apply app_nil in Hnil as [_ [=]]. }
    destruct (send_all_nonempty m1 Hne) as (_ & _ & _ & Hok & _).
    intros Hres. by rewrite (Hok Hres).
  - intros _. cbn [fst snd]. lia.
Qed.

(** X10. The ceiling bounds the total between calls: from a fresh queue,
    after any sequence of [append] and [send_all] calls that all
    returned, the running total is below [QUEUE_LIMIT_BYTES]. *)
Theorem append_keeps_below_ceiling cs (w : W) m' :
  forallb thresholded cs = true →
  calls cs {| self := init; world := w; trace := [] |} = (Ok tt, m') →
  size (self m') < QUEUE_LIMIT_BYTES.
Proof.
  enough (∀ m, forallb thresholded cs = true →
               size (self m) < QUEUE_LIMIT_BYTES →
               calls cs m = (Ok tt, m') →
               size (self m') < QUEUE_LIMIT_BYTES) as H.
  { intros Hall. by apply H. }
  induction cs as [|c cs IH]; intros m; cbn [forallb calls].
  - by intros _ Hlt [= <-].
  - intros [Hc Hcs]%andb_true_iff Hlt. unfold mbind, M_bind.
    pose proof (call_below_ceiling c m Hc Hlt) as Hstep.
    destruct (call c m) as [[[]|e] m1]; [|done].
    apply IH; [done|by apply Hstep].
Qed.

(** X11. Events without text never cause a flush, however many they
    are: a sequence of [append] calls with empty text, started below
    the ceiling, leaves the trace and the total as they were; it runs to
    its end unless a call rejects its version id. *)
Theorem textless_events_never_flush cs m :
  forallb textless cs = true →
  size (self m) < QUEUE_LIMIT_BYTES →
  trace (calls cs m).2 = trace m ∧
  size (self (calls cs m).2) = size (self m) ∧
  ((calls cs m).1 = Ok tt ∨ (calls cs m).1 = Raise ValueError).
Proof.
  revert m. induction cs as [|c cs IH]; intros m; cbn [forallb calls].
  - intros _ _. cbn. auto.
  - intros [Hc Hcs]%andb_true_iff Hlt. unfold mbind, M_bind.
    destruct c as [event_type sz lm bucket ext key text etag v|doc|];
      cbn [textless call] in *; [|done..].
    destruct (isinstance_str_or_none v) eqn:Hv;
      [|rewrite append_rejected by done; cbn; auto].
    destruct (startswith event_type "ObjectCreated:"
              || startswith event_type "ObjectRemoved:") eqn:He;
      [|rewrite append_skipped by done; by apply IH].
    rewrite append_accepted by done.
    set (m1 := put _ _).
    assert (Hsz : size (self m1) = size (self m)).
    { cbn. unfold charge. cbn. destruct (truthy text); [done|]. lia. }
    assert (Htr : trace m1 = trace m) by done.
    clearbody m1. rewrite bool_decide_eq_false_2 by lia.
    rewrite <- Htr, <- Hsz. apply IH; [done|lia].
Qed.

Lemma machine_eq m m' :
  queue (self m) = queue (self m') → size (self m) = size (self m') →
  world m = world m' → trace m = trace m' → m = m'.
Proof.
  destruct m as [[] ? ?], m' as [[] ? ?]. cbn. by intros -> -> -> ->.
Qed.

(** X12. [append_document] calls compose: re-queuing a list of documents
    one by one puts them at the end of the queue in the same order and
    adds the charge of each to the total, with no flush and no call to
    the cluster, whatever the total becomes. *)
Theorem append_documents_compose docs m :
  calls (AppendDocument <$> docs) m
  = (Ok tt,
     {| self := {| queue := queue (self m) ++ docs;
                   size := size (self m)
                           + foldr (λ doc total, charge doc + total) 0 docs |};
        world := world m; trace := trace m |}).
Proof.
  revert m. induction docs as [|doc docs IH]; intros m; cbn [fmap list_fmap calls].
  - cbn. f_equal. apply machine_eq; cbn; [by rewrite app_nil_r|lia|done..].
  - unfold mbind, M_bind. cbn [call]. rewrite append_document_put, IH.
    f_equal. apply machine_eq; cbn; [by rewrite <- app_assoc|lia|done..].
Qed.

(** X13. The two places where [append] derives the operation agree: for
    an event it does not skip, the [_op_type] of the document is the
    local [_op_type] of the if/elif chain, [index] for a created object
    and [delete] for a removed one. *)
Theorem operation_follows_event_type event_type sz last_modified bucket ext
    key text etag version_id now :
  event_op_type event_type = None
  ∨ event_op_type event_type
    = Some (Doc._op_type
              (body event_type sz last_modified bucket ext key text etag
                    version_id now)) ∧
    (startswith event_type "ObjectCreated:" = true ↔
     Doc._op_type
       (body event_type sz last_modified bucket ext key text etag
             version_id now) = "index").
Proof.
  unfold event_op_type. cbn.
  rewrite EVENT_PREFIX_Created, EVENT_PREFIX_Removed.
  destruct (startswith event_type "ObjectCreated:") eqn:Hc.
  - rewrite (created_not_removed _ Hc). by right.
  - destruct (startswith event_type "ObjectRemoved:"); [|by left].
    right. split; [done|]. by split.
Qed.

Lemma colon_key_inj (k1 k2 a b : string) :
  colon_free k1 = true → colon_free k2 = true →
  k1 +:+ ":" +:+ a = k2 +:+ ":" +:+ b → k1 = k2 ∧ a = b.
Proof.
  revert k2. induction k1 as [|c1 k1 IH]; intros [|c2 k2]; cbn.
  - intros _ _ [= Heq]. split; [done|exact Heq].
  - intros _ [Hc _]%andb_true_iff [= <- _].
    by rewrite Ascii.eqb_refl in Hc.
  - intros [Hc _]%andb_true_iff _ [= -> _].
    by rewrite Ascii.eqb_refl in Hc.
  - intros [_ H1]%andb_true_iff [_ H2]%andb_true_iff [= -> Heq].
    by destruct (IH k2 H1 H2 Heq) as [-> ->].
Qed.

(** X14. For keys that contain no colon the identifier determines the
    key and the text of the version id: two documents with the same
    [_id] then come from the same key and from version ids that format
    alike. *)
Theorem identifier_determines_key
    event_type1 sz1 last_modified1 bucket1 ext1 key1 text1 etag1 version_id1
    now1
    event_type2 sz2 last_modified2 bucket2 ext2 key2 text2 etag2 version_id2
    now2 :
  colon_free key1 = true →
  colon_free key2 = true →
  Doc._id (body event_type1 sz1 last_modified1 bucket1 ext1 key1 text1 etag1
                version_id1 now1)
  = Doc._id (body event_type2 sz2 last_modified2 bucket2 ext2 key2 text2
                  etag2 version_id2 now2) →
  key1 = key2 ∧ py_str version_id1 = py_str version_id2.
Proof. cbn. apply colon_key_inj. Qed.

Lemma budget_capped q :
  0 ≤ ELASTIC_LIMIT_BYTES →
  budget q ≤ ELASTIC_LIMIT_BYTES * Z.of_nat (length q).
Proof.
  intros Hcap. unfold budget.
  induction q as [|doc q IH]; cbn [List.filter length]; [cbn; lia|].
  destruct (truthy (Doc.content doc)); cbn [fmap list_fmap foldr]; lia.
Qed.

(** X15. No document counts for more than [ELASTIC_LIMIT_BYTES]: with a
    cap that is not negative, after any sequence of calls from a fresh
    queue that all returned, the total is at most the cap times the
    number of pending documents. *)
Theorem total_capped_per_document cs (w : W) m' :
  0 ≤ ELASTIC_LIMIT_BYTES →
  calls cs {| self := init; world := w; trace := [] |} = (Ok tt, m') →
  size (self m')
  ≤ ELASTIC_LIMIT_BYTES * Z.of_nat (length (queue (self m'))).
Proof.
  intros Hcap Hrun.
  assert (Hinv : budget_ok (self m'))
    by by eapply (calls_budget cs _ m'); [|exact Hrun].
  rewrite Hinv. by apply budget_capped.
Qed.

(** ** Arrival order *)

Lemma send_all_trace_grows m :
  ∃ evs, trace (send_all m).2 = trace m ++ EvSendAll :: evs.
Proof.
  destruct (decide (queue (self m) = [])) as [Hnil|Hne].
  - rewrite (send_all_empty _ Hnil). by exists [].
  - destruct (send_all_nonempty m Hne) as (batches & Ht & _). eauto.
Qed.

(** What one call does when it leaves the trace as it was: it returned,
    no flush took place, and the queue grew by the document of the call,
    if it has one. *)
Lemma call_quiet c m :
  trace (call c m).2 = trace m →
  (call c m).1 = Ok tt →
  Doc._id <$> queue (self (call c m).2)
  = (Doc._id <$> queue (self m)) ++ option_list (call_id c).
Proof.
  destruct c as [event_type sz lm bucket ext key text etag v|doc|];
    cbn [call call_id].
  - destruct (isinstance_str_or_none v) eqn:Hv;
      [|by rewrite append_rejected].
    destruct (event_op_type event_type) as [op|] eqn:Hop.
    + assert (He : startswith event_type "ObjectCreated:"
                   || startswith event_type "ObjectRemoved:" = true).
      { destruct (_ || _) eqn:He; [done|].
        apply event_op_type_None in He. congruence. }
      rewrite append_accepted by done.
      set (doc := body _ _ _ _ _ _ _ _ _ _). set (m1 := put doc _).
      assert (Hqu : queue (self m1) = queue (self m) ++ [doc]) by done.
      assert (Htr : trace m1 = trace m) by done.
      clearbody m1. case_bool_decide.
      * intros Ht. destruct (send_all_trace_grows m1) as [evs Hevs].
        rewrite Ht, Htr in Hevs. apply (f_equal length) in Hevs.
        rewrite length_app in Hevs. cbn in Hevs. lia.
      * intros _ _. cbn [fst snd]. by rewrite Hqu, fmap_app.
    + apply event_op_type_None in Hop. rewrite append_skipped by done.
      intros _ _. cbn. by rewrite app_nil_r.
  - rewrite append_document_put. intros _ _. cbn. by rewrite fmap_app.
  - intros Ht. destruct (send_all_trace_grows m) as [evs Hevs].
    rewrite Ht in Hevs. apply (f_equal length) in Hevs.
    rewrite length_app in Hevs. cbn in Hevs. lia.
Qed.

Lemma call_trace_prefix c m : trace m `prefix_of` trace (call c m).2.
Proof.
  destruct c as [event_type sz lm bucket ext key text etag v|doc|];
    cbn [call].
  - destruct (isinstance_str_or_none v) eqn:Hv;
      [|by rewrite append_rejected].
    destruct (startswith event_type "ObjectCreated:"
              || startswith event_type "ObjectRemoved:") eqn:He;
      [|by rewrite append_skipped].
    rewrite append_accepted by done. set (m1 := put _ _).
    assert (Htr : trace m1 = trace m) by done. clearbody m1.
    case_bool_decide; [|by rewrite <- Htr].
    destruct (send_all_trace_grows m1) as [evs ->]. rewrite Htr.
    by apply prefix_app_r.
  - by rewrite append_document_put.
  - destruct (send_all_trace_grows m) as [evs ->]. by apply prefix_app_r.
Qed.

Lemma calls_trace_prefix cs : ∀ m, trace m `prefix_of` trace (calls cs m).2.
Proof.
  induction cs as [|c cs IH]; intros m; cbn [calls]; [done|].
  unfold mbind, M_bind. pose proof (call_trace_prefix c m) as Hc.
  destruct (call c m) as [[[]|e] m1]; cbn [snd] in *; [|done].
  etrans; [exact Hc|apply IH].
Qed.

(** X16. Between two flushes the queue holds the documents in arrival
    order: when a sequence of calls returned and left the trace as it
    was (so no flush took place), the identifiers on the queue are those
    it held before, followed by one identifier per call that queued a
    document, in the order of the calls. *)
Theorem queued_in_arrival_order cs m m' :
  calls cs m = (Ok tt, m') →
  trace m' = trace m →
  Doc._id <$> queue (self m')
  = (Doc._id <$> queue (self m)) ++ omap call_id cs.
Proof.
  revert m. induction cs as [|c cs IH]; intros m; cbn [calls omap list_omap].
  - intros [= <-] _. cbn. by rewrite app_nil_r.
  - unfold mbind, M_bind. intros Hrun Ht.
    pose proof (call_trace_prefix c m) as Hpre1.
    pose proof (call_quiet c m) as Hquiet.
    destruct (call c m) as [[[]|e] m1] eqn:Hcall; cbn [fst snd] in *;
      [|done].
    pose proof (calls_trace_prefix cs m1) as Hpre2.
    rewrite Hrun in Hpre2. cbn [snd] in Hpre2. rewrite Ht in Hpre2.
    assert (Hsame : trace m1 = trace m).
    { symmetry. apply prefix_length_eq; [done|]. by apply prefix_length. }
    rewrite (IH m1 Hrun) by congruence.
    rewrite Hquiet by done. rewrite <- app_assoc. f_equal.
    by destruct (call_id c).
Qed.

End Indexer.

(** * The synthetic events of the tests *)

Import TestEvents.

(** Case analysis on the arguments [_make_event] tests for truth. *)
Ltac event_args bucket eTag key region size versionId :=
  unfold _make_event in *;
  destruct bucket as [|? ?], eTag as [|? ?], key as [|? ?],
    region as [|? ?], versionId as [|? ?], (size =? 0) eqn:?.

(** Case analysis on the branch [make_event] takes. *)
Ltac event_kind name :=
  unfold make_event, with_object in *;
  destruct (decide (name ∈ CREATE_EVENT_TYPES)) as [Hkind|Hkind];
  [ rewrite ?(bool_decide_eq_true_2 _ Hkind) in *
  | rewrite ?(bool_decide_eq_false_2 _ Hkind) in *;
    destruct (decide (name = "ObjectRemoved:Delete")) as [->|Hdel];
    [ | rewrite ?(bool_decide_eq_false_2 _ Hdel) in *;
        destruct (decide (name = "ObjectRemoved:DeleteMarkerCreated"))
          as [->|Hmark];
        [ | rewrite ?(bool_decide_eq_false_2 _ Hmark) in *;
            destruct (decide (name = UNKNOWN_EVENT_TYPE)) as [->|Hunk];
            [ | rewrite ?(bool_decide_eq_false_2 _ Hunk) in * ] ] ] ].

(** No subscript of [_make_event] fails on [EVENT_CORE]. *)
Lemma _make_event_made name bucket eTag key region size versionId :
  ∃ e, _make_event name bucket eTag key region size versionId = Some e.
Proof.
  event_args bucket eTag key region size versionId;
    vm_compute; eauto.
Qed.

(** X17. [make_event] raises [ValueError] exactly for the event types
    it does not know: those outside [CREATE_EVENT_TYPES] other than the
    two removals and [UNKNOWN_EVENT_TYPE]. For the others it returns an
    event; no subscript fails on the way. *)
Theorem make_event_unexpected name bucket eTag key region size versionId
    bucket_versioning :
  let out := make_event name bucket eTag key region size versionId
                        bucket_versioning in
  (out = Unexpected name ↔
     ((name ∉ CREATE_EVENT_TYPES) ∧
      name ≠ "ObjectRemoved:Delete" ∧
      name ≠ "ObjectRemoved:DeleteMarkerCreated" ∧
      name ≠ UNKNOWN_EVENT_TYPE)) ∧
  (out = Unexpected name ∨ ∃ e, out = Made e).
Proof.
  cbn zeta. unfold make_event.
  repeat case_bool_decide;
    try (match goal with
         | |- context [made (_make_event ?n ?b ?t ?k ?r ?s ?v)] =>
             destruct (_make_event_made n b t k r s v) as [e ->]
         end; cbn [made];
         split; [split; [done|tauto]|right; eauto]).
  split; [|by left]. split; [done|]. by intros _.
Qed.

(** What [_make_event] builds, read back: the name and ARN of the
    bucket, the optional keys of the object, and the keys at each
    level. *)
Lemma _make_event_bucket name bucket eTag key region size versionId e :
  _make_event name bucket eTag key region size versionId = Some e →
  let b := if truthy bucket then bucket else "test-bucket" in
  lookup_path ["s3"; "bucket"; "name"] e = Some (JStr b) ∧
  lookup_path ["s3"; "bucket"; "arn"] e
  = Some (JStr ("arn:aws:s3:::" +:+ b)).
Proof.
  intros H. event_args bucket eTag key region size versionId;
    vm_compute in H; injection H as <-; by vm_compute.
Qed.

Lemma _make_event_object name bucket eTag key region size versionId e :
  _make_event name bucket eTag key region size versionId = Some e →
  lookup_path ["s3"; "object"; "eTag"] e
  = (if truthy eTag then Some (JStr eTag) else None) ∧
  lookup_path ["s3"; "object"; "size"] e
  = (if negb (size =? 0) then Some (JInt size) else None) ∧
  lookup_path ["s3"; "object"; "versionId"] e
  = (if truthy versionId then Some (JStr versionId) else None).
Proof.
  intros H. event_args bucket eTag key region size versionId;
    vm_compute in H; injection H as <-; by vm_compute.
Qed.

Lemma _make_event_keys name bucket eTag key region size versionId e :
  _make_event name bucket eTag key region size versionId = Some e →
  keys_at [] e = keys_at [] EVENT_CORE ∧
  keys_at ["s3"] e = keys_at ["s3"] EVENT_CORE ∧
  keys_at ["s3"; "bucket"] e = keys_at ["s3"; "bucket"] EVENT_CORE ∧
  keys_at ["s3"; "object"] e
  = Some (["key"; "sequencer"]
          ++ (if truthy eTag then ["eTag"] else [])
          ++ (if negb (size =? 0) then ["size"] else [])
          ++ (if truthy versionId then ["versionId"] else [])).
Proof.
  intros H. event_args bucket eTag key region size versionId;
    vm_compute in H; injection H as <-; by vm_compute.
Qed.

(** The call of [_make_event] behind an event [make_event] returned. *)
Lemma make_event_made name bucket eTag key region size versionId
    bucket_versioning e :
  make_event name bucket eTag key region size versionId bucket_versioning
  = Made e →
  (with_object name = true ∧
   _make_event name bucket eTag key region size
               (if bucket_versioning then versionId else "") = Some e)
  ∨ (with_object name = false ∧ name = "ObjectRemoved:Delete" ∧
     _make_event name bucket "" key region 0 "" = Some e)
  ∨ (with_object name = false ∧ name = UNKNOWN_EVENT_TYPE ∧
     _make_event name "" "" "" "" 0 "" = Some e).
Proof.
  assert (Hmade : ∀ o, made o = Made e → o = Some e).
  { by intros [?|] [=]; subst. }
  event_kind name; intros H.
  - left. split; [done|]. by apply Hmade.
  - right. left. split; [by vm_compute|]. split; [done|]. by apply Hmade.
  - left. split; [by vm_compute|]. by apply Hmade.
  - right. right. split; [by vm_compute|]. split; [done|]. by apply Hmade.
  - done.
Qed.

(** X18. In every event [make_event] returns, the bucket's ARN is
    [arn:aws:s3:::] followed by the bucket's name; and the name is the
    [bucket] argument whenever that is not empty and the event type is
    not [UNKNOWN_EVENT_TYPE]. *)
Theorem make_event_arn name bucket eTag key region size versionId
    bucket_versioning e :
  make_event name bucket eTag key region size versionId bucket_versioning
  = Made e →
  ∃ b,
    lookup_path ["s3"; "bucket"; "name"] e = Some (JStr b) ∧
    lookup_path ["s3"; "bucket"; "arn"] e
    = Some (JStr ("arn:aws:s3:::" +:+ b)) ∧
    (name ≠ UNKNOWN_EVENT_TYPE → truthy bucket = true → b = bucket).
Proof.
  intros H.
  destruct (make_event_made _ _ _ _ _ _ _ _ _ H)
    as [[_ He]|[(_ & _ & He)|(_ & Hname & He)]];
    destruct (_make_event_bucket _ _ _ _ _ _ _ _ He) as [Hn Ha];
    eexists; (split; [exact Hn|]); (split; [exact Ha|]).
  - intros _ Hb. by rewrite Hb.
  - intros _ Hb. by rewrite Hb.
  - intros Hne. destruct (Hne Hname).
Qed.

(** X19. Which optional keys of the object an event carries: [eTag],
    [size] and [versionId] are there only for the created types and for
    [ObjectRemoved:DeleteMarkerCreated], and only when the argument is
    not empty (not 0 for the size); [versionId] needs
    [bucket_versioning] as well. An [ObjectRemoved:Delete] event and an
    unknown one carry none of the three. *)
Theorem make_event_object_keys name bucket eTag key region size versionId
    bucket_versioning e :
  make_event name bucket eTag key region size versionId bucket_versioning
  = Made e →
  lookup_path ["s3"; "object"; "eTag"] e
  = (if with_object name && truthy eTag then Some (JStr eTag) else None) ∧
  lookup_path ["s3"; "object"; "size"] e
  = (if with_object name && negb (size =? 0)
     then Some (JInt size) else None) ∧
  lookup_path ["s3"; "object"; "versionId"] e
  = (if with_object name && bucket_versioning && truthy versionId
     then Some (JStr versionId) else None).
Proof.
  intros H.
  destruct (make_event_made _ _ _ _ _ _ _ _ _ H)
    as [[-> He]|[(-> & _ & He)|(-> & _ & He)]];
    destruct (_make_event_object _ _ _ _ _ _ _ _ He) as (Ht & Hs & Hv);
    rewrite Ht, Hs, Hv.
  - destruct bucket_versioning; repeat split; reflexivity.
  - repeat split; reflexivity.
  - repeat split; reflexivity.
Qed.

(** X20. A synthetic event has the keys of [EVENT_CORE], in the same
    order, at the top, under [s3] and under [s3.bucket]; under
    [s3.object] it has the two keys of the core followed by the optional
    ones it carries. *)
Theorem make_event_shape name bucket eTag key region size versionId
    bucket_versioning e :
  make_event name bucket eTag key region size versionId bucket_versioning
  = Made e →
  keys_at [] e = keys_at [] EVENT_CORE ∧
  keys_at ["s3"] e = keys_at ["s3"] EVENT_CORE ∧
  keys_at ["s3"; "bucket"] e = keys_at ["s3"; "bucket"] EVENT_CORE ∧
  ∃ optional,
    keys_at ["s3"; "object"] e = Some (["key"; "sequencer"] ++ optional) ∧
    optional ⊆ ["eTag"; "size"; "versionId"].
Proof.
  intros H.
  assert (Hopt : ∀ (a b c : bool),
            (if a then ["eTag"] else [])
            ++ (if b then ["size"] else [])
            ++ (if c then ["versionId"] else [])
            ⊆ ["eTag"; "size"; "versionId"]).
  { assert (Het : "eTag" ∈ ["eTag"; "size"; "versionId"])
      by apply list_elem_of_here.
    assert (Hsz : "size" ∈ ["eTag"; "size"; "versionId"])
      by apply list_elem_of_further, list_elem_of_here.
    assert (Hvi : "versionId" ∈ ["eTag"; "size"; "versionId"])
      by (do 2 apply list_elem_of_further; apply list_elem_of_here).
    intros a b c x Hx. rewrite !elem_of_app in Hx.
    destruct Hx as [Hx|[Hx|Hx]]; [destruct a|destruct b|destruct c];
      first [ apply list_elem_of_singleton in Hx; rewrite Hx; assumption
            | by apply elem_of_nil in Hx ]. }
  destruct (make_event_made _ _ _ _ _ _ _ _ _ H)
    as [[_ He]|[(_ & _ & He)|(_ & _ & He)]];
    destruct (_make_event_keys _ _ _ _ _ _ _ _ He) as (H0 & H1 & H2 & H3);
    (split; [exact H0|]); (split; [exact H1|]); (split; [exact H2|]);
    eexists; (split; [exact H3|]); apply Hopt.
Qed.

(** * Runs against the scripted cluster *)

Import Scripted.

(** C3 does not hold as stated. When a document was queued twice and
    the cluster reports a failure for each copy, the retry list holds
    two entries with its identifier; and when an unrecognised entry
    comes before an entry that names a document, the second batch is
    the queue followed by that document, not the queue. *)
Lemma retry_set_not_deduplicated :
  let twice := [failure "index" "a:v1"; failure "index" "a:v1"] in
  let mixed := [unknown; failure "index" "a:v1"] in
  dispatches (trace (send_all bulk (start redelivered [twice])).2)
    = [[da; db; da]; [da; da]] ∧
  ¬ NoDup (Doc._id <$> [da; da]) ∧
  recognised unknown = false ∧
  dispatches (trace (send_all bulk (start pending [mixed])).2)
    = [[da; db]; [da; db; da]] ∧
  [da; db; da] ≠ [da; db].
Proof.
  cbv zeta. split; [by vm_compute|]. split.
  { intros [Hnotin _]%NoDup_cons. apply Hnotin. by left. }
  split; [by vm_compute|]. split; [by vm_compute|]. by intros [=].
Qed.

(** C6 does not hold as stated. For an absent version id the identifier
    ends in the text [None], not in the empty string; and the version
    string [None] gives the same identifier as the absent version id. *)
Lemma identifier_of_absent_version :
  let out v := append 100 bulk utcnow "ObjectCreated:Put" 5 t0 "bucket"
                      ".txt" "k" "text" "etag" v (start init []) in
  Doc._id <$> queue (self (out PyNone).2) = ["k:None"] ∧
  "k:None" ≠ "k" +:+ ":" +:+ "" ∧
  Doc._id <$> queue (self (out (PyStr "None")).2) = ["k:None"] ∧
  PyNone ≠ PyStr "None".
Proof.
  cbv zeta. split; [by vm_compute|]. split; [by vm_compute|].
  split; [by vm_compute|done].
Qed.

(** C7 does not hold as stated. A removed object queued with a text
    keeps that text. *)
Lemma removed_event_keeps_text :
  let out := append 100 bulk utcnow "ObjectRemoved:Delete" 5 t0 "bucket"
                    ".txt" "k" "hello" "etag" PyNone (start init []) in
  out.1 = Ok tt ∧
  (λ d, (Doc._op_type d, Doc.content d)) <$> queue (self out.2)
    = [("delete", "hello")] ∧
  "hello" ≠ "".
Proof. cbv zeta. split; [by vm_compute|]. split; by vm_compute. Qed.

(** A run of C2: the cluster answers the first batch with an entry the
    code does not recognise; the whole batch goes out again. *)
Lemma retry_attribution_witness :
  let m := start pending [[unknown]] in
  queue (self m) ≠ [] ∧
  unknown !! "index" = None ∧ unknown !! "delete" = None ∧
  ∃ again,
    trace (send_all bulk m).2
      = trace m ++ [EvSendAll; EvBulk (queue (self m)); EvBulk again] ∧
    queue (self m) `prefix_of` again.
Proof.
  cbv zeta. split; [done|]. split; [by vm_compute|]. split; [by vm_compute|].
  apply (proj1 (proj2 (proj2 (retry_attribution bulk)))
           (start pending [[unknown]]) unknown).
  - done.
  - constructor; [|constructor]. intros i Hrec. by vm_compute in Hrec.
  - by left.
  - by vm_compute.
  - by vm_compute.
Defined.

(** A run of C3: an entry that names a document, then an unrecognised
    one; the retry list is the queue, the document is not doubled. *)
Lemma retry_set_witness :
  let m := start pending [] in
  let errors := [failure "index" "a:v1"; unknown] in
  classify (id_to_doc_of (queue (self m))) (NewList []) errors m
    = (Ok SelfQueue, m) ∧
  contents SelfQueue m = [da; db].
Proof.
  cbv zeta.
  assert (Hrun : classify (id_to_doc_of (queue (self (start pending []))))
                   (NewList []) [failure "index" "a:v1"; unknown]
                   (start pending [])
                 = (Ok SelfQueue, start pending [])) by by vm_compute.
  split; [exact Hrun|].
  apply (proj2 (proj2 (retry_set _ _ _ _ Hrun))
           [failure "index" "a:v1"] unknown []).
  - done.
  - by vm_compute.
  - by vm_compute.
  - intros e Hin. by apply elem_of_nil in Hin.
Defined.

(** A run of C4: three calls with a cap of 5 bytes per document. *)
Lemma budget_invariant_witness :
  let cs := [Append "ObjectCreated:Put" 7 t0 "bucket" ".txt" "a" "hello"
                    "etag" (PyStr "v1");
             AppendDocument db;
             Append "ObjectRemoved:Delete" 9 t0 "bucket" ".txt" "c" ""
                    "etag" PyNone] in
  let out := calls 5 bulk utcnow cs (start init []) in
  out.1 = Ok tt ∧
  size (self out.2) = 5 ∧
  size (self out.2) = budget 5 (queue (self out.2)).
Proof.
  cbv zeta. split; [by vm_compute|]. split; [by vm_compute|].
  apply (proj1 (budget_invariant 5 bulk utcnow)
           [Append "ObjectCreated:Put" 7 t0 "bucket" ".txt" "a" "hello"
                   "etag" (PyStr "v1");
            AppendDocument db;
            Append "ObjectRemoved:Delete" 9 t0 "bucket" ".txt" "c" ""
                   "etag" PyNone] []).
  by vm_compute.
Defined.

(** A run of C5: one document of 100 MB reaches the ceiling. *)
Lemma append_threshold_witness :
  let out := append 100000000 bulk utcnow "ObjectCreated:Put" 100000000 t0
                    "bucket" ".txt" "k" "text" "etag" (PyStr "v1")
                    (start init []) in
  isinstance_str_or_none (PyStr "v1") = true ∧
  startswith "ObjectCreated:Put" "ObjectCreated:"
    || startswith "ObjectCreated:Put" "ObjectRemoved:" = true ∧
  ∃ evs,
    trace out.2 = evs ∧ flushes evs = 1%nat ∧
    (out.1 = Ok tt → queue (self out.2) = [] ∧ size (self out.2) = 0).
Proof.
  cbv zeta. split; [reflexivity|]. split; [reflexivity|].
  destruct (append_threshold 100000000 bulk utcnow "ObjectCreated:Put"
              100000000 t0 "bucket" ".txt" "k" "text" "etag" (PyStr "v1")
              (start init []) eq_refl eq_refl) as (evs & Ht & Hge & _).
  exists evs. split; [exact Ht|].
  assert (Hlim : QUEUE_LIMIT_BYTES
                 ≤ size (self (start init []))
                   + (if truthy "text" then 100000000 `min` 100000000 else 0))
    by by vm_compute.
  destruct (Hge Hlim) as (Hfl & _ & Hok). by split.
Defined.

(** A run of C6: two versions of one key. *)
Lemma append_identifier_witness :
  let out v := append 100 bulk utcnow "ObjectCreated:Put" 5 t0 "bucket"
                      ".txt" "k" "text" "etag" (PyStr v) (start init []) in
  isinstance_str_or_none (PyStr "v1") = true ∧
  isinstance_str_or_none (PyStr "v2") = true ∧
  startswith "ObjectCreated:Put" "ObjectCreated:"
    || startswith "ObjectCreated:Put" "ObjectRemoved:" = true ∧
  ∃ doc1 doc2,
    queues (start init []) (out "v1").2 doc1 ∧
    queues (start init []) (out "v2").2 doc2 ∧
    Doc._id doc1 = "k:v1" ∧ Doc._id doc1 ≠ Doc._id doc2.
Proof.
  cbv zeta. split; [reflexivity|]. split; [reflexivity|].
  split; [reflexivity|].
  destruct (append_identifier 100 bulk utcnow "k"
              "ObjectCreated:Put" 5 t0 "bucket" ".txt" "text" "etag"
              (PyStr "v1") (start init [])
              "ObjectCreated:Put" 5 t0 "bucket" ".txt" "text" "etag"
              (PyStr "v2") (start init [])
              eq_refl eq_refl eq_refl eq_refl)
    as (doc1 & doc2 & Hq1 & Hq2 & Hid & _ & _ & Hne & _).
  exists doc1, doc2. split; [exact Hq1|]. split; [exact Hq2|].
  split; [exact Hid|]. by apply (Hne "v1" "v2").
Defined.

(** A run of C7: a removed object, queued with no text. *)
Lemma append_operation_witness :
  let out := append 100 bulk utcnow "ObjectRemoved:Delete" 5 t0 "bucket"
                    ".txt" "k" "" "etag" PyNone (start init []) in
  isinstance_str_or_none PyNone = true ∧
  startswith "ObjectRemoved:Delete" "ObjectCreated:"
    || startswith "ObjectRemoved:Delete" "ObjectRemoved:" = true ∧
  ∃ doc,
    queues (start init []) out.2 doc ∧
    Doc.content doc = "" ∧ Doc._op_type doc = "delete".
Proof.
  cbv zeta. split; [reflexivity|]. split; [reflexivity|].
  destruct (append_operation 100 bulk utcnow "ObjectRemoved:Delete" 5 t0
              "bucket" ".txt" "k" "" "etag" PyNone (start init [])
              eq_refl eq_refl) as (doc & Hq & Hc & Hdel & _).
  exists doc. split; [exact Hq|]. split; [exact Hc|]. by apply Hdel.
Defined.

(** A run of C9: the retry fails too, and nothing is reset. *)
Lemma send_all_reset_witness :
  let answer := [failure "index" "a:v1"] in
  let m := start pending [answer; answer] in
  (send_all bulk m).1 = Raise RetryError ∧
  size (self (send_all bulk m).2) = 5 ∧
  queue (self (send_all bulk m).2) ≠ [] ∧
  length (dispatches (trace (send_all bulk m).2)) = 2%nat.
Proof.
  cbv zeta.
  assert (Hres : (send_all bulk (start pending [[failure "index" "a:v1"];
                                                [failure "index" "a:v1"]])).1
                 = Raise RetryError) by by vm_compute.
  split; [exact Hres|].
  destruct (send_all_reset 5 bulk
              (start pending [[failure "index" "a:v1"];
                              [failure "index" "a:v1"]]))
    as (_ & Hraise & Hretry).
  destruct (Hraise _ Hres) as (Hs & _ & Hne).
  split; [exact Hs|]. split; [exact Hne|]. exact (Hretry Hres).
Defined.


(** * Runs of the further properties *)

(** A run of X2: the cluster accepts both documents. *)
Lemma send_all_clean_witness :
  queue pending ≠ [] ∧
  (bulk [] (queue pending)).1.2 = [] ∧
  send_all bulk (start pending [])
  = (Ok tt,
     {| self := {| queue := []; size := 0 |}; world := [];
        trace := [EvSendAll; EvBulk [da; db]] |}).
Proof.
  split; [done|]. split; [reflexivity|].
  apply (send_all_clean bulk (start pending [])); [done|reflexivity].
Defined.

(** A run of X3: flush, then flush again. *)
Lemma send_all_twice_witness :
  let m := start pending [] in
  (send_all bulk m).1 = Ok tt ∧
  dispatches (trace (send_all bulk (send_all bulk m).2).2) = [[da; db]].
Proof.
  cbv zeta.
  assert (Hok : (send_all bulk (start pending [])).1 = Ok tt)
    by by vm_compute.
  split; [exact Hok|].
  rewrite (send_all_twice bulk (start pending []) Hok). by vm_compute.
Defined.

(** A run of X5: one failure, with a status and no identifier. *)
Lemma failures_without_id_are_dropped_witness :
  let m := start pending [[anonymous]] in
  recognised anonymous = true ∧ inner_of anonymous !! "_id" = None ∧
  send_all bulk m
  = (Ok tt,
     {| self := {| queue := []; size := 0 |}; world := [];
        trace := [EvSendAll; EvBulk [da; db]] |}).
Proof.
  cbv zeta. split; [by vm_compute|]. split; [by vm_compute|].
  apply (failures_without_id_are_dropped bulk (start pending [[anonymous]])).
  - done.
  - done.
  - intros error Hin. apply list_elem_of_singleton in Hin. rewrite Hin.
    split; by vm_compute.
Defined.

(** A run of X6: a failure for a document that was never sent. *)
Lemma unknown_identifier_raises_witness :
  let m := start pending [[failure "index" "z:v9"]] in
  (send_all bulk m).1 = Raise KeyError ∧
  trace (send_all bulk m).2 = [EvSendAll; EvBulk [da; db]] ∧
  size (self (send_all bulk m).2) = 5.
Proof.
  cbv zeta.
  destruct (unknown_identifier_raises bulk
              (start pending [[failure "index" "z:v9"]])
              [] (failure "index" "z:v9") [] "z:v9")
    as (Hres & Ht & _ & Hs & _).
  - done.
  - reflexivity.
  - constructor.
  - by vm_compute.
  - by vm_compute.
  - intros doc Hin. apply elem_of_cons in Hin as [->|Hin]; [by vm_compute|].
    apply list_elem_of_singleton in Hin. rewrite Hin. by vm_compute.
  - split; [exact Hres|]. split; [exact Ht|exact Hs].
Defined.

(** A run of X8: the retry fails, the object is as it was. *)
Lemma recognised_failures_leave_queue_witness :
  let answer := [failure "index" "a:v1"] in
  let m := start pending [answer; answer] in
  (send_all bulk m).1 = Raise RetryError ∧
  self (send_all bulk m).2 = pending.
Proof.
  cbv zeta.
  assert (Hres : (send_all bulk (start pending [[failure "index" "a:v1"];
                                                [failure "index" "a:v1"]])).1
                 = Raise RetryError) by by vm_compute.
  split; [exact Hres|].
  apply (recognised_failures_leave_queue bulk
           (start pending [[failure "index" "a:v1"];
                           [failure "index" "a:v1"]]) RetryError);
    [by vm_compute|exact Hres].
Defined.

(** A run of X10: a document of 100 MB, then a removal. *)
Lemma append_keeps_below_ceiling_witness :
  let cs := [Append "ObjectCreated:Put" 100000000 t0 "bucket" ".txt" "big"
                    "text" "etag" (PyStr "v1");
             Append "ObjectRemoved:Delete" 9 t0 "bucket" ".txt" "c" ""
                    "etag" PyNone] in
  let out := calls 100000000 bulk utcnow cs (start init []) in
  forallb thresholded cs = true ∧
  out.1 = Ok tt ∧
  length (dispatches (trace out.2)) = 1%nat ∧
  size (self out.2) < QUEUE_LIMIT_BYTES.
Proof.
  cbv zeta. split; [reflexivity|]. split; [by vm_compute|].
  split; [by vm_compute|].
  apply (append_keeps_below_ceiling 100000000 bulk utcnow
           [Append "ObjectCreated:Put" 100000000 t0 "bucket" ".txt" "big"
                   "text" "etag" (PyStr "v1");
            Append "ObjectRemoved:Delete" 9 t0 "bucket" ".txt" "c" ""
                   "etag" PyNone] []);
    [reflexivity|by vm_compute].
Defined.

(** A run of X11: three events without text. *)
Lemma textless_events_never_flush_witness :
  let c key := Append "ObjectCreated:Put" 123 t0 "bucket" ".exe" key ""
                      "etag" PyNone in
  let out := calls 100 bulk utcnow [c "a"; c "b"; c "c"] (start init []) in
  trace out.2 = [] ∧ size (self out.2) = 0 ∧
  length (queue (self out.2)) = 3%nat.
Proof.
  cbv zeta.
  destruct (textless_events_never_flush 100 bulk utcnow
              [Append "ObjectCreated:Put" 123 t0 "bucket" ".exe" "a" ""
                      "etag" PyNone;
               Append "ObjectCreated:Put" 123 t0 "bucket" ".exe" "b" ""
                      "etag" PyNone;
               Append "ObjectCreated:Put" 123 t0 "bucket" ".exe" "c" ""
                      "etag" PyNone]
              (start init [])) as (Ht & Hs & _).
  - reflexivity.
  - by vm_compute.
  - split; [exact Ht|]. split; [exact Hs|by vm_compute].
Defined.

(** A run of X14: the same key and version, queued twice. *)
Lemma identifier_determines_key_witness :
  colon_free "a/b.txt" = true ∧
  Doc._id (doc "a/b.txt" "v1" "hello" 5) = Doc._id (doc "a/b.txt" "v1" "" 7) ∧
  "a/b.txt" = "a/b.txt" ∧ py_str (PyStr "v1") = py_str (PyStr "v1").
Proof.
  split; [reflexivity|]. split; [reflexivity|].
  apply (identifier_determines_key
           "ObjectCreated:Put" 5 t0 "bucket" ".txt" "a/b.txt" "hello" "etag"
           (PyStr "v1") t0
           "ObjectCreated:Put" 7 t0 "bucket" ".txt" "a/b.txt" "" "etag"
           (PyStr "v1") t0); reflexivity.
Defined.

(** A run of X15: two documents under a cap of 5 bytes. *)
Lemma total_capped_per_document_witness :
  let cs := [Append "ObjectCreated:Put" 7 t0 "bucket" ".txt" "a" "hello"
                    "etag" (PyStr "v1");
             AppendDocument db] in
  let out := calls 5 bulk utcnow cs (start init []) in
  0 ≤ 5 ∧ out.1 = Ok tt ∧
  size (self out.2) ≤ 5 * Z.of_nat (length (queue (self out.2))).
Proof.
  cbv zeta. split; [done|]. split; [by vm_compute|].
  apply (total_capped_per_document 5 bulk utcnow
           [Append "ObjectCreated:Put" 7 t0 "bucket" ".txt" "a" "hello"
                   "etag" (PyStr "v1");
            AppendDocument db] []);
    [done|by vm_compute].
Defined.

(** A run of X16: an event, a skipped event, a re-queued document. *)
Lemma queued_in_arrival_order_witness :
  let cs := [Append "ObjectCreated:Put" 7 t0 "bucket" ".txt" "a" "hello"
                    "etag" (PyStr "v1");
             Append "Event:WeNeverHeardOf" 7 t0 "bucket" ".txt" "x" ""
                    "etag" PyNone;
             AppendDocument db] in
  let out := calls 100 bulk utcnow cs (start init []) in
  out.1 = Ok tt ∧ trace out.2 = [] ∧
  Doc._id <$> queue (self out.2) = ["a:v1"; "b:v1"].
Proof.
  cbv zeta. split; [by vm_compute|]. split; [by vm_compute|].
  etrans.
  - apply (queued_in_arrival_order 100 bulk utcnow
             [Append "ObjectCreated:Put" 7 t0 "bucket" ".txt" "a" "hello"
                     "etag" (PyStr "v1");
              Append "Event:WeNeverHeardOf" 7 t0 "bucket" ".txt" "x" ""
                     "etag" PyNone;
              AppendDocument db]
             (start init [])); by vm_compute.
  - by vm_compute.
Defined.

(** A run of X18: a put into a versioned bucket. *)
Lemma make_event_arn_witness :
  ∃ e,
    make_event "ObjectCreated:Put" "my-bucket" "123456" "hello+world.txt"
               "us-east-1" 100 "1313131313131.Vier50HdNbi7ZirO65" true
    = Made e ∧
    lookup_path ["s3"; "bucket"; "name"] e = Some (JStr "my-bucket") ∧
    lookup_path ["s3"; "bucket"; "arn"] e
    = Some (JStr "arn:aws:s3:::my-bucket").
Proof.
  destruct (make_event "ObjectCreated:Put" "my-bucket" "123456"
                       "hello+world.txt" "us-east-1" 100
                       "1313131313131.Vier50HdNbi7ZirO65" true)
    as [e|name|] eqn:H; [|by vm_compute in H..].
  exists e. split; [reflexivity|].
  destruct (make_event_arn _ _ _ _ _ _ _ _ _ H) as (b & Hn & Ha & Hb).
  clear H. rewrite Hn, Ha, Hb; [by split| |reflexivity]. by vm_compute.
Defined.

(** A run of X19: a put into an unversioned bucket has no version id. *)
Lemma make_event_object_keys_witness :
  ∃ e,
    make_event "ObjectCreated:Put" "my-bucket" "123456" "hello+world.txt"
               "us-east-1" 100 "1313131313131.Vier50HdNbi7ZirO65" false
    = Made e ∧
    lookup_path ["s3"; "object"; "eTag"] e = Some (JStr "123456") ∧
    lookup_path ["s3"; "object"; "size"] e = Some (JInt 100) ∧
    lookup_path ["s3"; "object"; "versionId"] e = None.
Proof.
  destruct (make_event "ObjectCreated:Put" "my-bucket" "123456"
                       "hello+world.txt" "us-east-1" 100
                       "1313131313131.Vier50HdNbi7ZirO65" false)
    as [e|name|] eqn:H; [|by vm_compute in H..].
  exists e. split; [reflexivity|].
  destruct (make_event_object_keys _ _ _ _ _ _ _ _ _ H) as (Ht & Hs & Hv).
  rewrite Ht, Hs, Hv. clear. by vm_compute.
Defined.

(** A run of X20: a hard delete. *)
Lemma make_event_shape_witness :
  ∃ e,
    make_event "ObjectRemoved:Delete" "my-bucket" "123456" "hello+world.txt"
               "us-east-1" 100 "1313131313131.Vier50HdNbi7ZirO65" true
    = Made e ∧
    keys_at [] e = keys_at [] EVENT_CORE ∧
    keys_at ["s3"; "bucket"] e = Some ["arn"; "name"; "ownerIdentity"].
Proof.
  destruct (make_event "ObjectRemoved:Delete" "my-bucket" "123456"
                       "hello+world.txt" "us-east-1" 100
                       "1313131313131.Vier50HdNbi7ZirO65" true)
    as [e|name|] eqn:H; [|by vm_compute in H..].
  exists e. split; [reflexivity|].
  destruct (make_event_shape _ _ _ _ _ _ _ _ _ H) as (H0 & _ & H2 & _).
  clear H. split; [exact H0|]. rewrite H2. by vm_compute.
Defined.
